(** * MatchingCore: a shallow embedding of
      nautilus_trader/execution/matching_core.pyx

    The Cython class [MatchingCore] keeps the top of book of one instrument
    (bid, ask, last as raw 64-bit integers with an initialised flag each),
    an index of working orders keyed by client order id, and two priority
    lists.  Orders are Python objects: the core, the lists and the three
    injected callbacks all hold references to the same objects.  The model
    therefore has an explicit object store ([heap]) and the lists hold
    references into it.

    Raw prices are [int64_t] in the source.  The core only stores and
    compares them (no arithmetic), so they are modelled as [Z] without any
    wrap-around. *)

From stdpp Require Import gmap strings list fin_maps sorting.
From Stdlib Require Import ZArith Lia.

Open Scope Z_scope.

(** ** Enumerations *)

(** [OrderSide] is a C enum; [INVALID_SIDE] stands for every value that is
    neither [BUY] nor [SELL]. *)
Inductive OrderSide := BUY | SELL | INVALID_SIDE.

Inductive OrderType :=
  | MARKET
  | LIMIT
  | STOP_MARKET
  | STOP_LIMIT
  | MARKET_TO_LIMIT
  | MARKET_IF_TOUCHED
  | LIMIT_IF_TOUCHED
  | TRAILING_STOP_MARKET
  | TRAILING_STOP_LIMIT.

Inductive LiquiditySide := NO_LIQUIDITY_SIDE | MAKER | TAKER.

#[global] Instance OrderSide_eq_dec : EqDecision OrderSide.
Proof. solve_decision. Defined.
#[global] Instance OrderType_eq_dec : EqDecision OrderType.
Proof. solve_decision. Defined.
#[global] Instance LiquiditySide_eq_dec : EqDecision LiquiditySide.
Proof. solve_decision. Defined.

(** ** Prices, orders, instrument *)

Record Price := mkPrice { raw : Z; precision : nat }.

#[global] Instance Price_eq_dec : EqDecision Price.
Proof. solve_decision. Defined.

Abbreviation ClientOrderId := string.

(** The attributes of an [Order] object the core reads or writes.  [price]
    and [trigger_price] exist only on some order classes; [None] stands for
    a missing attribute.  [is_triggered] is [false] on an order that has
    never been triggered. *)
Record Order := mkOrder {
  client_order_id : ClientOrderId;
  side : OrderSide;
  order_type : OrderType;
  price : option Price;
  trigger_price : option Price;
  is_triggered : bool;
  triggered_price : option Price;
  liquidity_side : LiquiditySide;
  is_closed : bool
}.

#[global] Instance Order_eq_dec : EqDecision Order.
Proof. solve_decision. Defined.

Record Instrument := mkInstrument { price_precision : nat }.

(** Object references. *)
Abbreviation ref := nat.

(** ** Exceptions and results *)

Inductive PyError :=
  | RuntimeError
  | TypeError
  | ValueError
  | AttributeError
  | ReferenceError
  | CallbackError (code : nat).

Inductive Res (A : Type) :=
  | Ok (a : A)
  | Raise (e : PyError).
Arguments Ok {A} a.
Arguments Raise {A} e.

#[global] Instance PyError_eq_dec : EqDecision PyError.
Proof. solve_decision. Defined.
#[global] Instance Res_eq_dec {A} `{EqDecision A} : EqDecision (Res A).
Proof. solve_decision. Defined.

(** ** Core state *)

Record MatchingCore := mkCore {
  _instrument : Instrument;
  bid_raw : Z;
  ask_raw : Z;
  last_raw : Z;
  is_bid_initialized : bool;
  is_ask_initialized : bool;
  is_last_initialized : bool;
  _orders : gmap ClientOrderId ref;
  _orders_bid : list ref;
  _orders_ask : list ref
}.

(** [__init__]. *)
Definition MatchingCore_init (instrument : Instrument) : MatchingCore :=
  {| _instrument := instrument;
     bid_raw := 0; ask_raw := 0; last_raw := 0;
     is_bid_initialized := false;
     is_ask_initialized := false;
     is_last_initialized := false;
     _orders := ∅; _orders_bid := []; _orders_ask := [] |}.

Definition with_orders (f : gmap ClientOrderId ref -> gmap ClientOrderId ref)
    (c : MatchingCore) : MatchingCore :=
  {| _instrument := _instrument c;
     bid_raw := bid_raw c; ask_raw := ask_raw c; last_raw := last_raw c;
     is_bid_initialized := is_bid_initialized c;
     is_ask_initialized := is_ask_initialized c;
     is_last_initialized := is_last_initialized c;
     _orders := f (_orders c);
     _orders_bid := _orders_bid c; _orders_ask := _orders_ask c |}.

Definition with_orders_bid (f : list ref -> list ref) (c : MatchingCore)
    : MatchingCore :=
  {| _instrument := _instrument c;
     bid_raw := bid_raw c; ask_raw := ask_raw c; last_raw := last_raw c;
     is_bid_initialized := is_bid_initialized c;
     is_ask_initialized := is_ask_initialized c;
     is_last_initialized := is_last_initialized c;
     _orders := _orders c;
     _orders_bid := f (_orders_bid c); _orders_ask := _orders_ask c |}.

Definition with_orders_ask (f : list ref -> list ref) (c : MatchingCore)
    : MatchingCore :=
  {| _instrument := _instrument c;
     bid_raw := bid_raw c; ask_raw := ask_raw c; last_raw := last_raw c;
     is_bid_initialized := is_bid_initialized c;
     is_ask_initialized := is_ask_initialized c;
     is_last_initialized := is_last_initialized c;
     _orders := _orders c;
     _orders_bid := _orders_bid c; _orders_ask := f (_orders_ask c) |}.

(** The properties [bid], [ask], [last]. *)
Definition bid (c : MatchingCore) : option Price :=
  if negb (is_bid_initialized c) then None
  else Some (mkPrice (bid_raw c) (price_precision (_instrument c))).

Definition ask (c : MatchingCore) : option Price :=
  if negb (is_ask_initialized c) then None
  else Some (mkPrice (ask_raw c) (price_precision (_instrument c))).

Definition last (c : MatchingCore) : option Price :=
  if negb (is_last_initialized c) then None
  else Some (mkPrice (last_raw c) (price_precision (_instrument c))).

(** ** Queries *)

Definition get_order (c : MatchingCore) (cid : ClientOrderId) : option ref :=
  _orders c !! cid.

Definition order_exists (c : MatchingCore) (cid : ClientOrderId) : bool :=
  bool_decide (is_Some (_orders c !! cid)).

Definition get_orders (c : MatchingCore) : list ref :=
  _orders_bid c ++ _orders_ask c.

Definition get_orders_bid (c : MatchingCore) : list ref := _orders_bid c.
Definition get_orders_ask (c : MatchingCore) : list ref := _orders_ask c.

(** ** Price commands *)

Definition set_bid_raw (v : Z) (c : MatchingCore) : MatchingCore :=
  {| _instrument := _instrument c;
     bid_raw := v; ask_raw := ask_raw c; last_raw := last_raw c;
     is_bid_initialized := true;
     is_ask_initialized := is_ask_initialized c;
     is_last_initialized := is_last_initialized c;
     _orders := _orders c;
     _orders_bid := _orders_bid c; _orders_ask := _orders_ask c |}.

Definition set_ask_raw (v : Z) (c : MatchingCore) : MatchingCore :=
  {| _instrument := _instrument c;
     bid_raw := bid_raw c; ask_raw := v; last_raw := last_raw c;
     is_bid_initialized := is_bid_initialized c;
     is_ask_initialized := true;
     is_last_initialized := is_last_initialized c;
     _orders := _orders c;
     _orders_bid := _orders_bid c; _orders_ask := _orders_ask c |}.

Definition set_last_raw (v : Z) (c : MatchingCore) : MatchingCore :=
  {| _instrument := _instrument c;
     bid_raw := bid_raw c; ask_raw := ask_raw c; last_raw := v;
     is_bid_initialized := is_bid_initialized c;
     is_ask_initialized := is_ask_initialized c;
     is_last_initialized := true;
     _orders := _orders c;
     _orders_bid := _orders_bid c; _orders_ask := _orders_ask c |}.

Definition reset (c : MatchingCore) : MatchingCore :=
  MatchingCore_init (_instrument c).

(** ** Predicates *)

Definition is_limit_matched (c : MatchingCore) (s : OrderSide) (p : Price)
    : Res bool :=
  match s with
  | BUY =>
      if negb (is_ask_initialized c) then Ok false
      else Ok (ask_raw c <=? raw p)
  | SELL =>
      if negb (is_bid_initialized c) then Ok false
      else Ok (bid_raw c >=? raw p)
  | INVALID_SIDE => Raise ValueError
  end.

Definition is_stop_triggered (c : MatchingCore) (s : OrderSide)
    (trigger : Price) : Res bool :=
  match s with
  | BUY =>
      if negb (is_ask_initialized c) then Ok false
      else Ok (ask_raw c >=? raw trigger)
  | SELL =>
      if negb (is_bid_initialized c) then Ok false
      else Ok (bid_raw c <=? raw trigger)
  | INVALID_SIDE => Raise ValueError
  end.

Definition is_touch_triggered (c : MatchingCore) (s : OrderSide)
    (trigger : Price) : Res bool :=
  match s with
  | BUY =>
      if negb (is_ask_initialized c) then Ok false
      else Ok (ask_raw c <=? raw trigger)
  | SELL =>
      if negb (is_bid_initialized c) then Ok false
      else Ok (bid_raw c >=? raw trigger)
  | INVALID_SIDE => Raise ValueError
  end.

Definition _determine_order_liquidity (initial : bool) (s : OrderSide)
    (p trigger : Price) : LiquiditySide :=
  if initial then TAKER
  else if bool_decide (s = BUY) && (raw trigger >? raw p) then MAKER
  else if bool_decide (s = SELL) && (raw trigger <? raw p) then MAKER
  else TAKER.

(** ** The sort key *)

Definition attr_or_raise {A} (a : option A) : Res A :=
  match a with
  | Some x => Ok x
  | None => Raise AttributeError
  end.

Definition order_sort_key (o : Order) : Res Z :=
  match order_type o with
  | LIMIT | MARKET_TO_LIMIT =>
      match attr_or_raise (price o) with
      | Ok p => Ok (raw p)
      | Raise e => Raise e
      end
  | STOP_MARKET | MARKET_IF_TOUCHED | TRAILING_STOP_MARKET =>
      match attr_or_raise (trigger_price o) with
      | Ok t => Ok (raw t)
      | Raise e => Raise e
      end
  | STOP_LIMIT | LIMIT_IF_TOUCHED | TRAILING_STOP_LIMIT =>
      match attr_or_raise (trigger_price o) with
      | Ok t =>
          match attr_or_raise (price o) with
          | Ok p => Ok (if is_triggered o then raw p else raw t)
          | Raise e => Raise e
          end
      | Raise e => Raise e
      end
  | MARKET => Raise RuntimeError
  end.

(** ** Python list operations on lists of order references *)

(** Modelled from the spec: [Order.__eq__] is defined with the order classes
    (model/orders), whose source is not available.  The spec says an order is
    "addressed by a unique client_order_id"; two references are equal when
    they are the same object or their objects carry the same client order
    id. *)
Definition order_eq (h : gmap ref Order) (a b : ref) : bool :=
  bool_decide (a = b) ||
  match h !! a, h !! b with
  | Some oa, Some ob => bool_decide (client_order_id oa = client_order_id ob)
  | _, _ => false
  end.

(** [x in l]. *)
Definition py_in (h : gmap ref Order) (x : ref) (l : list ref) : bool :=
  existsb (fun y => order_eq h y x) l.

(** [l.remove(x)], called only when [x in l]: drops the first equal item. *)
Fixpoint py_remove (h : gmap ref Order) (x : ref) (l : list ref) : list ref :=
  match l with
  | [] => []
  | y :: t => if order_eq h y x then t else y :: py_remove h x t
  end.

(** [list.sort(key=..., reverse=...)].  The keys of all items are computed
    first, in list order; if one of them raises, the list is left as it was.
    The sort is stable; with [reverse=True] the list is reversed, sorted
    ascending and reversed again, which keeps equal keys in their original
    order. *)
Fixpoint compute_keys {A} (key : A -> Res Z) (l : list A)
    : Res (list (Z * A)) :=
  match l with
  | [] => Ok []
  | x :: t =>
      match key x with
      | Raise e => Raise e
      | Ok k =>
          match compute_keys key t with
          | Raise e => Raise e
          | Ok kt => Ok ((k, x) :: kt)
          end
      end
  end.

Fixpoint insert_by_key {A} (kx : Z * A) (l : list (Z * A)) : list (Z * A) :=
  match l with
  | [] => [kx]
  | ky :: t =>
      if fst kx <=? fst ky then kx :: ky :: t
      else ky :: insert_by_key kx t
  end.

Fixpoint stable_sort {A} (l : list (Z * A)) : list (Z * A) :=
  match l with
  | [] => []
  | kx :: t => insert_by_key kx (stable_sort t)
  end.

Definition py_sort {A} (key : A -> Res Z) (rev : bool) (l : list A)
    : Res (list A) :=
  match compute_keys key l with
  | Raise e => Raise e
  | Ok kl =>
      Ok ((if rev then reverse (stable_sort (reverse kl))
           else stable_sort kl).*2)
  end.

(** ** The world: core, object store, callbacks *)

(** Ghost trace of the calls the core makes.  It has no counterpart in the
    source and is never read by the model; it is what "a callback was
    invoked" or "match_order was called" refers to below. *)
Inductive Event :=
  | EvMatch (r : ref) (initial : bool)
  | EvTriggerStop (r : ref)
  | EvFillMarket (r : ref)
  | EvFillLimit (r : ref).

#[global] Instance Event_eq_dec : EqDecision Event.
Proof. solve_decision. Defined.

Section Core.

(** [X] is whatever state the owner of the core and its callbacks keep
    besides the core and the orders. *)
Context {X : Type}.

Record Env := mkEnv {
  core : MatchingCore;
  heap : gmap ref Order;
  ext : X
}.

Record World := mkWorld {
  env : Env;
  trace : list Event
}.

(** A callback receives the order and may change anything it can reach: the
    order, other orders, the core (re-entrantly) and its own state; it may
    raise. *)
Definition Callback : Type := ref -> Env -> Res unit * Env.

Variable _trigger_stop_order : Callback.
Variable _fill_market_order : Callback.
Variable _fill_limit_order : Callback.

(** State and exception monad: a raised exception keeps the state reached
    so far. *)
Definition M (A : Type) : Type := World -> Res A * World.

#[export] Instance M_ret : MRet M := fun A a w => (Ok a, w).
#[export] Instance M_bind : MBind M := fun A B f m w =>
  match m w with
  | (Ok a, w') => f a w'
  | (Raise e, w') => (Raise e, w')
  end.

Definition raise {A} (e : PyError) : M A := fun w => (Raise e, w).

Definition lift_res {A} (r : Res A) : M A := fun w => (r, w).

Definition get_core : M MatchingCore := fun w => (Ok (core (env w)), w).

Definition get_heap : M (gmap ref Order) := fun w => (Ok (heap (env w)), w).

Definition modify_core (f : MatchingCore -> MatchingCore) : M unit :=
  fun w =>
    (Ok tt,
     {| env := {| core := f (core (env w));
                  heap := heap (env w);
                  ext := ext (env w) |};
        trace := trace w |}).

Definition emit (ev : Event) : M unit :=
  fun w => (Ok tt, {| env := env w; trace := trace w ++ [ev] |}).

(** Reading an attribute of the object behind [r].  In Python a reference
    always denotes an object; a reference the store does not know is
    reported as [ReferenceError] to keep the model total. *)
Definition read (r : ref) : M Order :=
  fun w =>
    match heap (env w) !! r with
    | Some o => (Ok o, w)
    | None => (Raise ReferenceError, w)
    end.

(** Writing attributes of the object behind [r]. *)
Definition write (r : ref) (f : Order -> Order) : M unit :=
  fun w =>
    (Ok tt,
     {| env := {| core := core (env w);
                  heap := alter f r (heap (env w));
                  ext := ext (env w) |};
        trace := trace w |}).

Definition get_price (r : ref) : M Price :=
  o ← read r; lift_res (attr_or_raise (price o)).

Definition get_trigger_price (r : ref) : M Price :=
  o ← read r; lift_res (attr_or_raise (trigger_price o)).

Definition set_liquidity_side_attr (l : LiquiditySide) (o : Order) : Order :=
  {| client_order_id := client_order_id o; side := side o;
     order_type := order_type o; price := price o;
     trigger_price := trigger_price o; is_triggered := is_triggered o;
     triggered_price := triggered_price o;
     liquidity_side := l; is_closed := is_closed o |}.

Definition set_triggered_price_attr (p : Price) (o : Order) : Order :=
  {| client_order_id := client_order_id o; side := side o;
     order_type := order_type o; price := price o;
     trigger_price := trigger_price o; is_triggered := is_triggered o;
     triggered_price := Some p;
     liquidity_side := liquidity_side o; is_closed := is_closed o |}.

(** [order.liquidity_side = l]. *)
Definition set_liquidity_side (r : ref) (l : LiquiditySide) : M unit :=
  write r (set_liquidity_side_attr l).

(** Modelled from the spec: [Order.set_triggered_price_c] belongs to the
    order classes (model/orders), whose source is not available; the spec
    calls it the "mutator called by the core on activation".  It stores the
    given price as the order's triggered price. *)
Definition set_triggered_price_c (r : ref) (p : Price) : M unit :=
  write r (set_triggered_price_attr p).

(** Modelled from the spec: [Order.is_closed_c] belongs to the order
    classes; the spec has [is_closed] "queried by the core to skip terminal
    orders during iteration". *)
Definition is_closed_c (r : ref) : M bool :=
  o ← read r; mret (is_closed o).

(** Calling one of the injected callbacks. *)
Definition run_callback (cb : Callback) (r : ref) : M unit :=
  fun w =>
    let '(res, e') := cb r (env w) in
    (res, {| env := e'; trace := trace w |}).

Definition invoke (ev : Event) (cb : Callback) (r : ref) : M unit :=
  emit ev;; run_callback cb r.

(** ** Commands on the order collections *)

Definition sort_key_of (h : gmap ref Order) (r : ref) : Res Z :=
  match h !! r with
  | Some o => order_sort_key o
  | None => Raise ReferenceError
  end.

Definition _sort_bid_orders : M unit :=
  c ← get_core; h ← get_heap;
  l ← lift_res (py_sort (sort_key_of h) true (_orders_bid c));
  modify_core (with_orders_bid (fun _ => l)).

Definition _sort_ask_orders : M unit :=
  c ← get_core; h ← get_heap;
  l ← lift_res (py_sort (sort_key_of h) false (_orders_ask c));
  modify_core (with_orders_ask (fun _ => l)).

Definition _add_order (r : ref) : M unit :=
  o ← read r;
  modify_core (with_orders (insert (client_order_id o) r));;
  o ← read r;
  match side o with
  | BUY =>
      modify_core (with_orders_bid (fun l => l ++ [r]));;
      _sort_bid_orders
  | SELL =>
      modify_core (with_orders_ask (fun l => l ++ [r]));;
      _sort_ask_orders
  | INVALID_SIDE => raise RuntimeError
  end.

Definition add_order (r : ref) : M unit := _add_order r.

Definition delete_order (r : ref) : M unit :=
  o ← read r;
  modify_core (with_orders (delete (client_order_id o)));;
  o ← read r;
  match side o with
  | BUY =>
      c ← get_core; h ← get_heap;
      if py_in h r (_orders_bid c)
      then modify_core (with_orders_bid (py_remove h r))
      else mret tt
  | SELL =>
      c ← get_core; h ← get_heap;
      if py_in h r (_orders_ask c)
      then modify_core (with_orders_ask (py_remove h r))
      else mret tt
  | INVALID_SIDE => raise RuntimeError
  end.

(** ** Matching *)

(** [self.is_limit_matched(order.side, order.price)] and its two siblings:
    the arguments are read from the order, left to right, then the predicate
    is evaluated on the core as it is at that moment. *)
Definition check (pred : MatchingCore -> OrderSide -> Price -> Res bool)
    (arg : Order -> option Price) (r : ref) : M bool :=
  o ← read r;
  p ← lift_res (attr_or_raise (arg o));
  c ← get_core;
  lift_res (pred c (side o) p).

Definition match_limit_order (r : ref) : M unit :=
  b ← check is_limit_matched price r;
  if b : bool then
    set_liquidity_side r MAKER;;
    invoke (EvFillLimit r) _fill_limit_order r
  else mret tt.

Definition match_stop_market_order (r : ref) : M unit :=
  b ← check is_stop_triggered trigger_price r;
  if b : bool then
    t ← get_trigger_price r;
    set_triggered_price_c r t;;
    invoke (EvFillMarket r) _fill_market_order r
  else mret tt.

(** [order.liquidity_side = self._determine_order_liquidity(initial,
    order.side, order.price, order.trigger_price)]. *)
Definition assign_order_liquidity (r : ref) (initial : bool) : M unit :=
  o ← read r;
  p ← lift_res (attr_or_raise (price o));
  t ← lift_res (attr_or_raise (trigger_price o));
  set_liquidity_side r (_determine_order_liquidity initial (side o) p t).

Definition match_stop_limit_order (r : ref) (initial : bool) : M unit :=
  o ← read r;
  if is_triggered o then
    b ← check is_limit_matched price r;
    if b : bool then
      set_liquidity_side r MAKER;;
      invoke (EvFillLimit r) _fill_limit_order r
    else mret tt
  else
    b ← check is_stop_triggered trigger_price r;
    if b : bool then
      t ← get_trigger_price r;
      set_triggered_price_c r t;;
      assign_order_liquidity r initial;;
      invoke (EvTriggerStop r) _trigger_stop_order r;;
      b' ← check is_limit_matched price r;
      if b' : bool then
        set_liquidity_side r TAKER;;
        invoke (EvFillLimit r) _fill_limit_order r
      else mret tt
    else mret tt.

Definition match_market_if_touched_order (r : ref) : M unit :=
  b ← check is_touch_triggered trigger_price r;
  if b : bool then
    t ← get_trigger_price r;
    set_triggered_price_c r t;;
    invoke (EvFillMarket r) _fill_market_order r
  else mret tt.

Definition match_limit_if_touched_order (r : ref) (initial : bool) : M unit :=
  o ← read r;
  if is_triggered o then
    b ← check is_limit_matched price r;
    if b : bool then
      set_liquidity_side r MAKER;;
      invoke (EvFillLimit r) _fill_limit_order r
    else mret tt
  else
    b ← check is_touch_triggered trigger_price r;
    if b : bool then
      (if negb initial then
         t ← get_trigger_price r;
         set_triggered_price_c r t
       else mret tt);;
      assign_order_liquidity r initial;;
      invoke (EvTriggerStop r) _trigger_stop_order r;;
      b' ← check is_limit_matched price r;
      if b' : bool then
        set_liquidity_side r TAKER;;
        invoke (EvFillLimit r) _fill_limit_order r
      else mret tt
    else mret tt.

Definition match_order (r : ref) (initial : bool) : M unit :=
  emit (EvMatch r initial);;
  o ← read r;
  match order_type o with
  | LIMIT | MARKET_TO_LIMIT => match_limit_order r
  | STOP_LIMIT | TRAILING_STOP_LIMIT => match_stop_limit_order r initial
  | STOP_MARKET | TRAILING_STOP_MARKET => match_stop_market_order r
  | LIMIT_IF_TOUCHED => match_limit_if_touched_order r initial
  | MARKET_IF_TOUCHED => match_market_if_touched_order r
  | MARKET => raise TypeError
  end.

(** The loop of [iterate] over the copied list. *)
Fixpoint iterate_loop (l : list ref) : M unit :=
  match l with
  | [] => mret tt
  | r :: rest =>
      closed ← is_closed_c r;
      (if closed : bool then mret tt else match_order r false);;
      iterate_loop rest
  end.

Definition iterate (timestamp_ns : N) : M unit :=
  c ← get_core;
  iterate_loop (_orders_bid c ++ _orders_ask c).

End Core.

(** ** The public operations as commands *)

Inductive Command :=
  | CSetBidRaw (v : Z)
  | CSetAskRaw (v : Z)
  | CSetLastRaw (v : Z)
  | CReset
  | CAddOrder (r : ref)
  | CDeleteOrder (r : ref)
  | CIterate (timestamp_ns : N)
  | CMatchOrder (r : ref) (initial : bool).

Definition exec {X} (trig fillm filll : @Callback X) (cmd : Command)
    : @M X unit :=
  match cmd with
  | CSetBidRaw v => modify_core (set_bid_raw v)
  | CSetAskRaw v => modify_core (set_ask_raw v)
  | CSetLastRaw v => modify_core (set_last_raw v)
  | CReset => modify_core reset
  | CAddOrder r => add_order r
  | CDeleteOrder r => delete_order r
  | CIterate ts => iterate trig fillm filll ts
  | CMatchOrder r initial => match_order trig fillm filll r initial
  end.

(** ** Predicates used in the statements *)

(** Is a list of keys in order?  [le x y] says [x] may come before [y]. *)
Fixpoint sortedb (le : Z -> Z -> bool) (l : list Z) : bool :=
  match l with
  | [] => true
  | x :: t => forallb (le x) t && sortedb le t
  end.

(** A side list is sorted by [order_sort_key]: every key can be computed and
    the keys are descending ([reverse = true], bids) or ascending (asks). *)
Definition side_sorted (reverse : bool) (h : gmap ref Order) (l : list ref)
    : bool :=
  match compute_keys (sort_key_of h) l with
  | Ok kl => sortedb (if reverse then Z.geb else Z.leb) (kl.*1)
  | Raise _ => false
  end.

Definition lists_sorted {X} (e : @Env X) : Prop :=
  side_sorted true (heap e) (_orders_bid (core e)) = true /\
  side_sorted false (heap e) (_orders_ask (core e)) = true.

(** The side list an order of side [s] lives in. *)
Definition side_list (c : MatchingCore) (s : OrderSide) : list ref :=
  match s with
  | BUY => _orders_bid c
  | SELL => _orders_ask c
  | INVALID_SIDE => []
  end.

(** How many items of [l] compare equal to [x]. *)
Definition count_eq (h : gmap ref Order) (x : ref) (l : list ref) : nat :=
  length (filter (fun y => order_eq h y x = true) l).


(** The orders [match_order] was called on, in call order. *)
Definition matched (t : list Event) : list ref :=
  omap (fun ev => match ev with EvMatch r _ => Some r | _ => None end) t.

(** [keyed key kl]: every pair of [kl] carries the key of its item. *)
Definition keyed {A} (key : A -> Res Z) (kl : list (Z * A)) : Prop :=
  Forall (fun kx => key kx.2 = Ok kx.1) kl.

(** The order on keyed items: descending keys when reversed. *)
Definition key_rel {A} (rev : bool) (a b : Z * A) : Prop :=
  if rev then b.1 <= a.1 else a.1 <= b.1.

(** [steps R m]: running [m] takes every world to one related to it by
    [R], whether [m] returns or raises. *)
Definition steps {X A} (R : @World X -> @World X -> Prop) (m : @M X A)
    : Prop :=
  forall w, R w (m w).2.

(** The trace has only grown, and by no [match_order] call. *)
Definition quiet_step {X} (w w' : @World X) : Prop :=
  exists new, trace w' = trace w ++ new /\ matched new = [].

(** The side lists are sorted afterwards if they were before. *)
Definition keeps_sorted {X} (w w' : @World X) : Prop :=
  lists_sorted (env w) -> lists_sorted (env w').

(** ** Cores that differ in the last price only *)

Definition forget_last (c : MatchingCore) : MatchingCore :=
  {| _instrument := _instrument c;
     bid_raw := bid_raw c; ask_raw := ask_raw c; last_raw := 0;
     is_bid_initialized := is_bid_initialized c;
     is_ask_initialized := is_ask_initialized c;
     is_last_initialized := false;
     _orders := _orders c;
     _orders_bid := _orders_bid c; _orders_ask := _orders_ask c |}.

Definition same_but_last (c1 c2 : MatchingCore) : Prop :=
  forget_last c1 = forget_last c2.

Definition same_but_last_env {X} (e1 e2 : @Env X) : Prop :=
  same_but_last (core e1) (core e2) /\
  heap e1 = heap e2 /\ ext e1 = ext e2.

Definition same_but_last_world {X} (w1 w2 : @World X) : Prop :=
  same_but_last_env (env w1) (env w2) /\ trace w1 = trace w2.

(** A callback that does not look at the last price: from environments that
    differ in the last price only it has the same outcome and leaves
    environments that again differ in the last price only. *)
Definition ignores_last {X} (cb : @Callback X) : Prop :=
  forall r e1 e2,
    same_but_last_env e1 e2 ->
    (cb r e1).1 = (cb r e2).1 /\ same_but_last_env (cb r e1).2 (cb r e2).2.

(** [m] behaves the same from worlds that differ in the last price only. *)
Definition blind_to_last {X A} (m : @M X A) : Prop :=
  forall w1 w2,
    same_but_last_world w1 w2 ->
    (m w1).1 = (m w2).1 /\ same_but_last_world (m w1).2 (m w2).2.

(** A callback that leaves the side lists sorted if they were. *)
Definition callback_keeps_sorted {X} (cb : @Callback X) : Prop :=
  forall r e, lists_sorted e -> lists_sorted (cb r e).2.

(** Running a sequence of commands; a raised exception is seen by the
    caller and the next command runs on the state that was reached. *)
Fixpoint exec_all {X} (trig fillm filll : @Callback X) (cmds : list Command)
    (w : @World X) : @World X :=
  match cmds with
  | [] => w
  | cmd :: rest =>
      exec_all trig fillm filll rest (exec trig fillm filll cmd w).2
  end.

(** Every [add_order] of the run returns normally. *)
Fixpoint adds_return {X} (trig fillm filll : @Callback X)
    (cmds : list Command) (w : @World X) : Prop :=
  match cmds with
  | [] => True
  | cmd :: rest =>
      match cmd with
      | CAddOrder r => (add_order r w).1 = Ok tt
      | _ => True
      end /\
      adds_return trig fillm filll rest (exec trig fillm filll cmd w).2
  end.

(** ** Activation of a conditional limit order, step by step

    Second description of what [match_stop_limit_order] and
    [match_limit_if_touched_order] do once their trigger condition holds,
    written as plain functions on worlds; the theorems below relate the
    matchers to it. *)

(** [is_limit_matched(order.side, order.price)] for the order behind [r],
    evaluated in the environment [e]. *)
Definition limit_matched_now {X} (e : @Env X) (r : ref) : Res bool :=
  match heap e !! r with
  | None => Raise ReferenceError
  | Some o =>
      match price o with
      | None => Raise AttributeError
      | Some p => is_limit_matched (core e) (side o) p
      end
  end.

(** What happens once the trigger callback is back with outcome [res] in
    world [w2]: an exception propagates; otherwise the limit is checked in
    [w2], and only if it is matched the liquidity side becomes TAKER and the
    limit-fill callback is invoked. *)
Definition after_trigger {X} (filll : @Callback X) (r : ref)
    (res : Res unit) (w2 : @World X) : Res unit * @World X :=
  match res with
  | Raise e => (Raise e, w2)
  | Ok _ =>
      match limit_matched_now (env w2) r with
      | Raise e => (Raise e, w2)
      | Ok false => (Ok tt, w2)
      | Ok true =>
          let '(res', e3) :=
            filll r {| core := core (env w2);
                       heap := alter (set_liquidity_side_attr TAKER) r
                                     (heap (env w2));
                       ext := ext (env w2) |} in
          (res', {| env := e3; trace := trace w2 ++ [EvFillLimit r] |})
      end
  end.

(** Activation: the order object becomes [o'], the trigger callback is
    invoked on it, then [after_trigger]. *)
Definition activate {X} (trig filll : @Callback X) (r : ref) (o' : Order)
    (w : @World X) : Res unit * @World X :=
  let '(res, e2) :=
    trig r {| core := core (env w);
              heap := <[r := o']> (heap (env w));
              ext := ext (env w) |} in
  after_trigger filll r res
    {| env := e2; trace := trace w ++ [EvTriggerStop r] |}.

(** The order as the core leaves it just before the trigger callback. *)
Definition activated (o : Order) (tp : option Price) (l : LiquiditySide)
    : Order :=
  {| client_order_id := client_order_id o; side := side o;
     order_type := order_type o; price := price o;
     trigger_price := trigger_price o; is_triggered := is_triggered o;
     triggered_price := tp;
     liquidity_side := l; is_closed := is_closed o |}.

(** ** Concrete orders, callbacks and worlds used in the examples *)

Module Examples.

Definition instr : Instrument := mkInstrument 2.

Definition px (v : Z) : Price := mkPrice v 2.

(** An order whose side is neither BUY nor SELL. *)
Definition bad_side_order : Order :=
  mkOrder "O-BAD" INVALID_SIDE LIMIT (Some (px 10050)) None
          false None NO_LIQUIDITY_SIDE false.

(** A fresh core and a store holding only [bad_side_order]. *)
Definition w_bad : @World unit :=
  mkWorld (mkEnv (MatchingCore_init instr) {[ 1%nat := bad_side_order ]} tt) [].

(** The same store, with the order already in the index. *)
Definition w_bad_indexed : @World unit :=
  mkWorld (mkEnv (with_orders (insert "O-BAD" 1%nat) (MatchingCore_init instr))
                 {[ 1%nat := bad_side_order ]} tt) [].

(** A resting limit order to buy at 100.50. *)
Definition limit_buy : Order :=
  mkOrder "O-1" BUY LIMIT (Some (px 10050)) None
          false None NO_LIQUIDITY_SIDE false.

(** A fresh core and a store holding only [limit_buy]. *)
Definition w_one : @World unit :=
  mkWorld (mkEnv (MatchingCore_init instr) {[ 1%nat := limit_buy ]} tt) [].

(** [limit_buy] added once. *)
Definition w_single : @World unit := (add_order 1%nat w_one).2.

(** [limit_buy] added twice. *)
Definition w_dup : @World unit :=
  (add_order 1%nat (add_order 1%nat w_one).2).2.

(** A trigger callback that marks the order as triggered, and a fill
    callback that closes it. *)
Definition mark_triggered (o : Order) : Order :=
  mkOrder (client_order_id o) (side o) (order_type o) (price o)
          (trigger_price o) true (triggered_price o) (liquidity_side o)
          (is_closed o).

Definition mark_closed (o : Order) : Order :=
  mkOrder (client_order_id o) (side o) (order_type o) (price o)
          (trigger_price o) (is_triggered o) (triggered_price o)
          (liquidity_side o) true.

Definition cb_trigger : @Callback unit :=
  fun r e => (Ok tt, mkEnv (core e) (alter mark_triggered r (heap e)) (ext e)).

Definition cb_fill : @Callback unit :=
  fun r e => (Ok tt, mkEnv (core e) (alter mark_closed r (heap e)) (ext e)).

Definition cb_noop : @Callback unit := fun r e => (Ok tt, e).

(** Spec scenario 3: ask 101.00, bid 100.90, a STOP_LIMIT BUY with trigger
    100.50 and limit 102.00. *)
Definition stop_limit_buy : Order :=
  mkOrder "O-3" BUY STOP_LIMIT (Some (px 10200)) (Some (px 10050))
          false None NO_LIQUIDITY_SIDE false.

Definition w_stop_limit : @World unit :=
  mkWorld (mkEnv (set_bid_raw 10090 (set_ask_raw 10100
                    (MatchingCore_init instr)))
                 {[ 1%nat := stop_limit_buy ]} tt) [].

(** The same world after a trade at 123.45 was recorded as last price. *)
Definition w_stop_limit_last : @World unit :=
  mkWorld (mkEnv (set_last_raw 12345 (core (env w_stop_limit)))
                 (heap (env w_stop_limit)) tt) [].

(** Spec scenario 4: ask 100.00, a LIMIT_IF_TOUCHED BUY with trigger 100.50
    and limit 99.50. *)
Definition lit_buy : Order :=
  mkOrder "O-4" BUY LIMIT_IF_TOUCHED (Some (px 9950)) (Some (px 10050))
          false None NO_LIQUIDITY_SIDE false.

Definition w_lit : @World unit :=
  mkWorld (mkEnv (set_ask_raw 10000 (MatchingCore_init instr))
                 {[ 1%nat := lit_buy ]} tt) [].

(** A STOP_LIMIT BUY with trigger 100.00 and limit 90.00 resting above a
    LIMIT BUY at 95.00. *)
Definition resting_stop_limit : Order :=
  mkOrder "O-A" BUY STOP_LIMIT (Some (px 9000)) (Some (px 10000))
          false None NO_LIQUIDITY_SIDE false.

Definition resting_limit : Order :=
  mkOrder "O-B" BUY LIMIT (Some (px 9500)) None
          false None NO_LIQUIDITY_SIDE false.

Definition w_two_fresh : @World unit :=
  mkWorld (mkEnv (MatchingCore_init instr)
                 {[ 1%nat := resting_stop_limit; 2%nat := resting_limit ]}
                 tt) [].

(** Both orders added, then the ask moves to 100.00. *)
Definition w_two : @World unit :=
  exec_all cb_trigger cb_noop cb_fill
    [CAddOrder 2%nat; CAddOrder 1%nat; CSetAskRaw 10000] w_two_fresh.

(** Two resting bids and a sell order that is not in the core yet. *)
Definition second_bid : Order :=
  mkOrder "O-2" BUY LIMIT (Some (px 10040)) None
          false None NO_LIQUIDITY_SIDE false.

Definition late_sell : Order :=
  mkOrder "O-S" SELL LIMIT (Some (px 9000)) None
          false None NO_LIQUIDITY_SIDE false.

Definition w_sweep : @World unit :=
  exec_all cb_noop cb_noop cb_noop
    [CAddOrder 1%nat; CAddOrder 2%nat; CSetAskRaw 10000; CSetBidRaw 9990]
    (mkWorld (mkEnv (MatchingCore_init instr)
                    {[ 1%nat := limit_buy; 2%nat := second_bid;
                       3%nat := late_sell ]} tt) []).

(** A fill callback that closes the filled order and order 2, and calls
    back into the core to add order 3. *)
Definition cb_fill_reenter : @Callback unit :=
  fun r e =>
    let e1 := mkEnv (core e)
                    (alter mark_closed 2%nat (alter mark_closed r (heap e)))
                    (ext e) in
    (Ok tt, env (add_order 3%nat (mkWorld e1 [])).2).

End Examples.

(** ** Further notions used in the statements *)

(** The other side of the book. *)
Definition opposite (s : OrderSide) : OrderSide :=
  match s with
  | BUY => SELL
  | SELL => BUY
  | INVALID_SIDE => INVALID_SIDE
  end.

(** The core with the bid and ask slots exchanged. *)
Definition swap_bid_ask (c : MatchingCore) : MatchingCore :=
  {| _instrument := _instrument c;
     bid_raw := ask_raw c; ask_raw := bid_raw c; last_raw := last_raw c;
     is_bid_initialized := is_ask_initialized c;
     is_ask_initialized := is_bid_initialized c;
     is_last_initialized := is_last_initialized c;
     _orders := _orders c;
     _orders_bid := _orders_bid c; _orders_ask := _orders_ask c |}.

(** Neither side of the market has been published. *)
Definition no_market (c : MatchingCore) : Prop :=
  is_bid_initialized c = false /\ is_ask_initialized c = false.

(** The attributes of an order the core only reads. *)
Definition static_attrs (o : Order)
    : ClientOrderId * OrderSide * OrderType * option Price * option Price
      * bool * bool :=
  (client_order_id o, side o, order_type o, price o, trigger_price o,
   is_triggered o, is_closed o).

(** From [w] to [w'] the core is the same and every order has kept the
    attributes the core only reads. *)
Definition core_and_statics_kept {X} (w w' : @World X) : Prop :=
  core (env w') = core (env w) /\
  forall r, static_attrs <$> heap (env w') !! r
            = static_attrs <$> heap (env w) !! r.

(** A callback that leaves the core alone and changes no attribute the core
    only reads. *)
Definition callback_keeps_core_and_statics {X} (cb : @Callback X) : Prop :=
  forall r e,
    core (cb r e).2 = core e /\
    forall r', static_attrs <$> heap (cb r e).2 !! r'
               = static_attrs <$> heap e !! r'.

(** Every order on the bid list is a BUY order and every order on the ask
    list a SELL order. *)
Definition sides_partitioned {X} (e : @Env X) : Prop :=
  (forall r, r ∈ _orders_bid (core e) ->
     side <$> heap e !! r = Some BUY) /\
  (forall r, r ∈ _orders_ask (core e) ->
     side <$> heap e !! r = Some SELL).

(** The sort key of every listed item, as a plain list. *)
Definition keys_of (h : gmap ref Order) (l : list ref) : list (Res Z) :=
  sort_key_of h <$> l.

(** In a list sorted for [rev], an order with key [kx] may stand before one
    with key [k] ([ranks_ahead]) or must stand after it ([ranks_behind]). *)
Definition ranks_ahead (rev : bool) (h : gmap ref Order) (k : Z) (x : ref)
    : Prop :=
  exists kx, sort_key_of h x = Ok kx /\ if rev then k <= kx else kx <= k.

Definition ranks_behind (rev : bool) (h : gmap ref Order) (k : Z) (x : ref)
    : Prop :=
  exists kx, sort_key_of h x = Ok kx /\ if rev then kx < k else k < kx.

(** A computation that ends in the world it started in, with whatever
    outcome. *)
Definition stays {X A} (m : @M X A) (w : @World X) : Prop :=
  exists res, m w = (res, w).

(** ** The callback invocations of a run

    To speak of the invocations a run makes, the callbacks are run with a
    log beside the caller's state: each invocation appends the environment
    it was given and the environment it left.  The log is out of the
    callbacks' reach, and the logged run is the original run with the log
    carried along (shown below). *)

Definition Logged (X : Type) : Type := (X * list (@Env X * @Env X))%type.

(** The environment without the log. *)
Definition unlog {X} (e : @Env (Logged X)) : @Env X :=
  {| core := core e; heap := heap e; ext := (ext e).1 |}.

Definition recording {X} (cb : @Callback X) : @Callback (Logged X) :=
  fun r e =>
    let out := cb r (unlog e) in
    (out.1,
     {| core := core out.2; heap := heap out.2;
        ext := (ext out.2, (ext e).2 ++ [(unlog e, out.2)]) |}).

Definition with_log {X} (w : @World X) : @World (Logged X) :=
  {| env := {| core := core (env w); heap := heap (env w);
               ext := (ext (env w), []) |};
     trace := trace w |}.

(** The callback invocations of the run of [cmds] from [w], in order: the
    environment each was given and the environment it left. *)
Definition invocations {X} (trig fillm filll : @Callback X)
    (cmds : list Command) (w : @World X) : list (@Env X * @Env X) :=
  (ext (env (exec_all (recording trig) (recording fillm) (recording filll)
                      cmds (with_log w)))).2.

(** The invocation left the side lists sorted if it found them sorted. *)
Definition kept_sorted_by {X} (inv : @Env X * @Env X) : Prop :=
  lists_sorted inv.1 -> lists_sorted inv.2.

(** [w'] is [w] with a log. *)
Definition logs_of {X} (w : @World X) (w' : @World (Logged X)) : Prop :=
  env w = unlog (env w') /\ trace w = trace w'.

(** [m'] does on logged worlds what [m] does on plain ones. *)
Definition simulates {X A} (m : @M X A) (m' : @M (Logged X) A) : Prop :=
  forall w w', logs_of w w' ->
    (m w).1 = (m' w').1 /\ logs_of (m w).2 (m' w').2.

(** From [w1] to [w2] the log has only grown, and if the new invocations
    kept the lists sorted, sorted lists have stayed sorted. *)
Definition logged_step {X} (w1 w2 : @World (Logged X)) : Prop :=
  exists new,
    (ext (env w2)).2 = (ext (env w1)).2 ++ new /\
    (Forall kept_sorted_by new ->
     lists_sorted (env w1) -> lists_sorted (env w2)).

(** ** The turns of a sweep *)

Inductive Turn :=
  | Matched (r : ref)
  | Skipped (r : ref).

Definition turn_order (t : Turn) : ref :=
  match t with Matched r | Skipped r => r end.

Definition matched_turns (ts : list Turn) : list ref :=
  omap (fun t => match t with Matched r => Some r | Skipped _ => None end) ts.

(** [sweeps l w turns out]: going through [l] from world [w], turn by turn,
    ends in [out].  An order that is closed when its turn comes is skipped;
    any other is handed to [match_order] with [initial = false], in the
    world the turns before it have left; an exception ends the sweep. *)
Inductive sweeps {X} (trig fillm filll : @Callback X)
    : list ref -> @World X -> list Turn -> Res unit * @World X -> Prop :=
  | sweeps_done w :
      sweeps trig fillm filll [] w [] (Ok tt, w)
  | sweeps_skip r rest w o turns out :
      heap (env w) !! r = Some o ->
      is_closed o = true ->
      sweeps trig fillm filll rest w turns out ->
      sweeps trig fillm filll (r :: rest) w (Skipped r :: turns) out
  | sweeps_match r rest w o w' turns out :
      heap (env w) !! r = Some o ->
      is_closed o = false ->
      match_order trig fillm filll r false w = (Ok tt, w') ->
      sweeps trig fillm filll rest w' turns out ->
      sweeps trig fillm filll (r :: rest) w (Matched r :: turns) out
  | sweeps_raise r rest w o e w' :
      heap (env w) !! r = Some o ->
      is_closed o = false ->
      match_order trig fillm filll r false w = (Raise e, w') ->
      sweeps trig fillm filll (r :: rest) w [Matched r] (Raise e, w')
  | sweeps_unknown r rest w :
      heap (env w) !! r = None ->
      sweeps trig fillm filll (r :: rest) w [] (Raise ReferenceError, w).

(** ** Further concrete worlds *)

Module MoreExamples.

(** A MARKET order, which the core cannot rank, and a limit order. *)
Definition market_buy : Order :=
  mkOrder "O-M" BUY MARKET None None false None NO_LIQUIDITY_SIDE false.

Definition w_market : @World unit :=
  mkWorld (mkEnv (MatchingCore_init Examples.instr)
                 {[ 1%nat := market_buy; 2%nat := Examples.limit_buy ]}
                 tt) [].

(** A book with bids at 100.50 and 100.40, and a third bid at 100.50 that
    is not in the core yet. *)
Definition same_price_bid : Order :=
  mkOrder "O-2b" BUY LIMIT (Some (Examples.px 10050)) None
          false None NO_LIQUIDITY_SIDE false.

Definition w_book : @World unit :=
  exec_all Examples.cb_noop Examples.cb_noop Examples.cb_noop
    [CAddOrder 3%nat; CAddOrder 1%nat]
    (mkWorld (mkEnv (MatchingCore_init Examples.instr)
                    {[ 1%nat := Examples.limit_buy; 2%nat := same_price_bid;
                       3%nat := Examples.second_bid ]} tt) []).

(** Ask at 100.00 with [Examples.limit_buy] (limit 100.50) in the store. *)
Definition w_limit : @World unit :=
  mkWorld (mkEnv (set_ask_raw 10000 (MatchingCore_init Examples.instr))
                 {[ 1%nat := Examples.limit_buy ]} tt) [].

(** Spec scenario 2: a STOP_MARKET BUY with trigger 100.00, ask at
    100.00. *)
Definition stop_market_buy : Order :=
  mkOrder "O-SM" BUY STOP_MARKET None (Some (Examples.px 10000))
          false None NO_LIQUIDITY_SIDE false.

Definition w_stop_market : @World unit :=
  mkWorld (mkEnv (set_ask_raw 10000 (MatchingCore_init Examples.instr))
                 {[ 1%nat := stop_market_buy ]} tt) [].

(** [Examples.w_stop_limit] with the order already triggered. *)
Definition w_triggered : @World unit :=
  mkWorld (mkEnv (core (env Examples.w_stop_limit))
                 {[ 1%nat := Examples.mark_triggered Examples.stop_limit_buy ]}
                 tt) [].

(** A bid list left out of order by a trigger: the stop-limit of
    [Examples.w_two], triggered, in front of the limit at 95.00; a third
    bid is in the store. *)
Definition w_out_of_order : @World unit :=
  let w := (iterate Examples.cb_trigger Examples.cb_noop Examples.cb_fill
              0%N Examples.w_two).2 in
  mkWorld (mkEnv (core (env w))
                 (<[3%nat := Examples.second_bid]> (heap (env w))) tt) [].

(** A callback that only counts its invocations in the caller's state. *)
Definition cb_count : @Callback nat :=
  fun r e => (Ok tt, mkEnv (core e) (heap e) (S (ext e))).

(** [Examples.stop_limit_buy] added to a core whose market (ask 101.00, bid
    100.90) is past its trigger and within its limit. *)
Definition w_counted : @World nat :=
  exec_all cb_count cb_count cb_count
    [CAddOrder 1%nat; CSetAskRaw 10100; CSetBidRaw 10090]
    (mkWorld (mkEnv (MatchingCore_init Examples.instr)
                    {[ 1%nat := Examples.stop_limit_buy ]} 0%nat) []).

(** A run in which a stop-limit rests above a limit bid, triggers and
    fills. *)
Definition w_run_fresh : @World unit :=
  mkWorld (mkEnv (MatchingCore_init Examples.instr)
                 {[ 1%nat := Examples.stop_limit_buy;
                    2%nat := Examples.resting_limit ]} tt) [].

Definition run_cmds : list Command :=
  [CAddOrder 2%nat; CAddOrder 1%nat; CSetAskRaw 10100; CSetBidRaw 10090;
   CIterate 0%N].

(** [Examples.w_two] after the sweep that triggers its stop-limit: reached
    from a fresh core by public operations only. *)
Definition w_after_trigger : @World unit :=
  exec_all Examples.cb_trigger Examples.cb_noop Examples.cb_fill
    [CAddOrder 2%nat; CAddOrder 1%nat; CSetAskRaw 10000; CIterate 0%N]
    Examples.w_two_fresh.

End MoreExamples.

(** * Properties *)

(** ** Predicates and liquidity side *)

(** C4: [is_limit_matched] on BUY is true exactly when the ask is initialised
    and [ask_raw <= price.raw], on SELL exactly when the bid is initialised
    and [bid_raw >= price.raw]; with the needed side uninitialised it is
    false whatever raw value is stored, so a fresh core matches nothing. *)
Theorem is_limit_matched_iff (c : MatchingCore) (p : Price) :
  (exists b, is_limit_matched c BUY p = Ok b /\
     (b = true <-> is_ask_initialized c = true /\ ask_raw c <= raw p)) /\
  (exists b, is_limit_matched c SELL p = Ok b /\
     (b = true <-> is_bid_initialized c = true /\ bid_raw c >= raw p)) /\
  (forall i b a l bi li o ob oa,
     is_limit_matched (mkCore i b a l bi false li o ob oa) BUY p = Ok false) /\
  (forall i b a l ai li o ob oa,
     is_limit_matched (mkCore i b a l false ai li o ob oa) SELL p = Ok false) /\
  (forall i, is_limit_matched (MatchingCore_init i) BUY p = Ok false /\
             is_limit_matched (MatchingCore_init i) SELL p = Ok false).
Proof.
  repeat split; try reflexivity.
  - unfold is_limit_matched.
    destruct (is_ask_initialized c); simpl; eexists; split; try reflexivity.
    + rewrite Z.leb_le. tauto.
    + split; [discriminate | intros [H _]; discriminate].
  - unfold is_limit_matched.
    destruct (is_bid_initialized c); simpl; eexists; split; try reflexivity.
    + rewrite Z.geb_le.
      split; [intros; split; [done | lia] | intros [_ H]; lia].
    + split; [discriminate | intros [H _]; discriminate].
Qed.

(** C5: the liquidity side is TAKER when [initial] holds; otherwise it is
    MAKER exactly for a BUY with [trigger_price.raw > price.raw] or a SELL
    with [trigger_price.raw < price.raw], and TAKER in every other case. *)
Theorem determine_order_liquidity_spec (s : OrderSide) (p t : Price) :
  _determine_order_liquidity true s p t = TAKER /\
  (_determine_order_liquidity false s p t = MAKER <->
     (s = BUY /\ raw t > raw p) \/ (s = SELL /\ raw t < raw p)) /\
  (_determine_order_liquidity false s p t = TAKER <->
     ~ ((s = BUY /\ raw t > raw p) \/ (s = SELL /\ raw t < raw p))).
Proof.
  split; [reflexivity |].
  unfold _determine_order_liquidity.
  destruct (raw t >? raw p) eqn:Hgt, (raw t <? raw p) eqn:Hlt;
    rewrite ?Z.gtb_ltb, ?Z.ltb_lt, ?Z.ltb_ge in *;
    destruct s; simpl; split; split; intros H;
    try discriminate; try reflexivity; try lia;
    try (intros [[? ?]|[? ?]]; (discriminate || lia));
    try (left; split; [reflexivity | lia]);
    try (right; split; [reflexivity | lia]);
    try (exfalso; apply H; (left; split; [reflexivity | lia]) ||
                           (right; split; [reflexivity | lia]));
    try (destruct H as [[? ?]|[? ?]]; (discriminate || lia)).
Qed.

(** ** Reasoning about the monad *)

Section MonadLemmas.
Context {X : Type}.
Implicit Types w : @World X.

Lemma bind_ok {A B} (m : @M X A) (f : A -> @M X B) w a w' :
  m w = (Ok a, w') -> (m ≫= f) w = f a w'.
Proof. intros H. unfold mbind, M_bind. by rewrite H. Qed.

Lemma bind_raise {A B} (m : @M X A) (f : A -> @M X B) w e w' :
  m w = (Raise e, w') -> (m ≫= f) w = (Raise e, w').
Proof. intros H. unfold mbind, M_bind. by rewrite H. Qed.

Lemma read_some r w o :
  heap (env w) !! r = Some o -> read r w = (Ok o, w).
Proof. intros H. unfold read. by rewrite H. Qed.

Lemma read_none r w :
  heap (env w) !! r = None -> read r w = (Raise ReferenceError, w).
Proof. intros H. unfold read. by rewrite H. Qed.



End MonadLemmas.

(** ** Invalid order side *)

Lemma add_order_invalid {X} (w : @World X) r o :
  heap (env w) !! r = Some o ->
  side o = INVALID_SIDE ->
  add_order r w =
    (Raise RuntimeError,
     {| env := {| core := with_orders (insert (client_order_id o) r)
                                      (core (env w));
                  heap := heap (env w); ext := ext (env w) |};
        trace := trace w |}).
Proof.
  intros Hr Hs. unfold add_order, _add_order.
  rewrite (bind_ok _ _ _ _ _ (read_some _ _ _ Hr)).
  unfold mbind at 1, M_bind at 1, modify_core at 1.
  erewrite bind_ok by (apply read_some; exact Hr).
  by rewrite Hs.
Qed.

Lemma delete_order_invalid {X} (w : @World X) r o :
  heap (env w) !! r = Some o ->
  side o = INVALID_SIDE ->
  delete_order r w =
    (Raise RuntimeError,
     {| env := {| core := with_orders (delete (client_order_id o))
                                      (core (env w));
                  heap := heap (env w); ext := ext (env w) |};
        trace := trace w |}).
Proof.
  intros Hr Hs. unfold delete_order.
  rewrite (bind_ok _ _ _ _ _ (read_some _ _ _ Hr)).
  unfold mbind at 1, M_bind at 1, modify_core at 1.
  erewrite bind_ok by (apply read_some; exact Hr).
  by rewrite Hs.
Qed.

(** C2, as the code has it: with a side that is neither BUY nor SELL both
    [add_order] and [delete_order] raise, and both side lists, the prices and
    the orders themselves are as before; the index, which is updated before
    the side is looked at, has gained (add) or lost (delete) the entry of the
    order's client order id. *)
Theorem invalid_side_raises_after_index_update {X} (w : @World X) r o :
  heap (env w) !! r = Some o ->
  side o = INVALID_SIDE ->
  add_order r w =
    (Raise RuntimeError,
     {| env := {| core := with_orders (insert (client_order_id o) r)
                                      (core (env w));
                  heap := heap (env w); ext := ext (env w) |};
        trace := trace w |}) /\
  delete_order r w =
    (Raise RuntimeError,
     {| env := {| core := with_orders (delete (client_order_id o))
                                      (core (env w));
                  heap := heap (env w); ext := ext (env w) |};
        trace := trace w |}) /\
  _orders_bid (core (env (add_order r w).2)) = _orders_bid (core (env w)) /\
  _orders_ask (core (env (add_order r w).2)) = _orders_ask (core (env w)) /\
  _orders_bid (core (env (delete_order r w).2)) = _orders_bid (core (env w)) /\
  _orders_ask (core (env (delete_order r w).2)) = _orders_ask (core (env w)).
Proof.
  intros Hr Hs.
  rewrite (add_order_invalid w r o Hr Hs), (delete_order_invalid w r o Hr Hs).
  by repeat split.
Qed.

Lemma invalid_side_raises_after_index_update_witness :
  heap (env Examples.w_bad) !! 1%nat = Some Examples.bad_side_order /\
  side Examples.bad_side_order = INVALID_SIDE /\
  add_order 1%nat Examples.w_bad =
    (Raise RuntimeError, Examples.w_bad_indexed).
Proof.
  split; [reflexivity | split; [reflexivity |]].
  exact (proj1 (invalid_side_raises_after_index_update
                  Examples.w_bad 1%nat Examples.bad_side_order
                  eq_refl eq_refl)).
Defined.

(** C2 as claimed fails: the failed [add_order] has created the index entry
    and the failed [delete_order] has removed it. *)
Lemma invalid_side_state_not_untouched :
  (add_order 1%nat Examples.w_bad).1 = Raise RuntimeError /\
  order_exists (core (env Examples.w_bad)) "O-BAD" = false /\
  order_exists (core (env (add_order 1%nat Examples.w_bad).2)) "O-BAD" = true /\
  (delete_order 1%nat Examples.w_bad_indexed).1 = Raise RuntimeError /\
  order_exists (core (env Examples.w_bad_indexed)) "O-BAD" = true /\
  order_exists (core (env (delete_order 1%nat Examples.w_bad_indexed).2))
               "O-BAD" = false.
Proof. vm_compute. repeat split. Qed.

(** ** Sorting *)

Section SortLemmas.
Context {A : Type}.
Implicit Types (key : A -> Res Z) (l : list A) (kl : list (Z * A)).

Lemma compute_keys_inv key l kl :
  compute_keys key l = Ok kl -> kl.*2 = l /\ keyed key kl.
Proof.
  revert kl. induction l as [|x t IH]; intros kl H; simpl in H.
  - inversion H. split; [done | constructor].
  - destruct (key x) as [k|] eqn:Hk; [|discriminate].
    destruct (compute_keys key t) as [kt|]; [|discriminate].
    inversion H; subst. destruct (IH kt eq_refl) as [E F].
    split; [by rewrite fmap_cons, E | by constructor].
Qed.

Lemma compute_keys_keyed key kl :
  keyed key kl -> compute_keys key (kl.*2) = Ok kl.
Proof.
  induction 1 as [|[k x] kl Hk _ IH]; [done |].
  rewrite fmap_cons. simpl in *. by rewrite Hk, IH.
Qed.

Lemma compute_keys_ext key key' l :
  (forall x, x ∈ l -> key x = key' x) ->
  compute_keys key l = compute_keys key' l.
Proof.
  induction l as [|x t IH]; intros H; [done |]. simpl.
  rewrite <- (H x) by left. rewrite IH; [done |].
  intros y Hy. apply H. by right.
Qed.

Lemma insert_by_key_perm (kx : Z * A) kl : insert_by_key kx kl ≡ₚ kx :: kl.
Proof.
  induction kl as [|ky t IH]; [done |]. simpl.
  destruct (kx.1 <=? ky.1); [done |].
  rewrite IH. apply Permutation_swap.
Qed.

Lemma stable_sort_perm kl : stable_sort kl ≡ₚ kl.
Proof.
  induction kl as [|kx t IH]; [done |]. simpl.
  by rewrite insert_by_key_perm, IH.
Qed.

Lemma insert_by_key_sorted (kx : Z * A) kl :
  StronglySorted (key_rel false) kl ->
  StronglySorted (key_rel false) (insert_by_key kx kl).
Proof.
  induction kl as [|ky t IH]; intros Hs; simpl.
  - repeat constructor.
  - apply StronglySorted_cons in Hs as [Hall Hs].
    destruct (kx.1 <=? ky.1) eqn:E.
    + apply Z.leb_le in E. constructor; [by constructor |].
      constructor; [exact E |].
      eapply Forall_impl; [exact Hall |]. unfold key_rel. simpl. lia.
    + apply Z.leb_gt in E. constructor; [by apply IH |].
      rewrite insert_by_key_perm. constructor; [|done].
      unfold key_rel. lia.
Qed.

Lemma stable_sort_sorted kl : StronglySorted (key_rel false) (stable_sort kl).
Proof.
  induction kl as [|kx t IH]; simpl; [constructor |].
  by apply insert_by_key_sorted.
Qed.

Lemma reverse_sorted kl :
  StronglySorted (key_rel false) kl ->
  StronglySorted (key_rel true) (reverse kl).
Proof.
  induction 1 as [|kx t Hs IH Hall]; [constructor |].
  rewrite reverse_cons. apply StronglySorted_app_2; [|done|repeat constructor].
  intros a b Ha Hb. rewrite elem_of_reverse in Ha.
  apply list_elem_of_singleton in Hb as ->.
  rewrite Forall_forall in Hall. exact (Hall a Ha).
Qed.

Lemma sortedb_leb (ks : list Z) :
  sortedb Z.leb ks = true <-> StronglySorted Z.le ks.
Proof.
  induction ks as [|k t IH]; simpl.
  - split; [constructor | done].
  - rewrite andb_true_iff, IH, StronglySorted_cons, forallb_forall,
      Forall_forall.
    split; intros [H1 H2]; (split; [|done]); intros y Hy.
    + apply Z.leb_le, H1. by apply list_elem_of_In.
    + apply Z.leb_le, H1. by apply list_elem_of_In.
Qed.

Lemma sortedb_geb (ks : list Z) :
  sortedb Z.geb ks = true <-> StronglySorted (flip Z.le) ks.
Proof.
  induction ks as [|k t IH]; simpl.
  - split; [constructor | done].
  - rewrite andb_true_iff, IH, StronglySorted_cons, forallb_forall,
      Forall_forall.
    split; intros [H1 H2]; (split; [|done]); intros y Hy.
    + unfold flip. apply Z.geb_le, H1. by apply list_elem_of_In.
    + apply Z.geb_le. apply list_elem_of_In in Hy. exact (H1 y Hy).
Qed.

Lemma sorted_fst (R : relation Z) kl :
  StronglySorted R (kl.*1) <-> StronglySorted (fun a b => R a.1 b.1) kl.
Proof.
  induction kl as [|kx t IH]; [split; constructor |].
  rewrite fmap_cons, !StronglySorted_cons, IH, Forall_fmap. done.
Qed.

Lemma sortedb_key_rel (rev : bool) kl :
  sortedb (if rev then Z.geb else Z.leb) (kl.*1) = true <->
  StronglySorted (key_rel rev) kl.
Proof.
  destruct rev.
  - rewrite sortedb_geb. apply sorted_fst.
  - rewrite sortedb_leb. apply sorted_fst.
Qed.

(** Equal keys keep their order, also in a reversed sort. *)
Example py_sort_reverse_stable :
  let key := fun n : nat => if (n <? 10)%nat then Ok 5 else Ok 7 in
  @py_sort nat key true [1%nat; 20%nat; 2%nat; 3%nat]
    = Ok [20%nat; 1%nat; 2%nat; 3%nat] /\
  @py_sort nat key false [20%nat; 3%nat; 1%nat; 30%nat; 2%nat]
    = Ok [3%nat; 1%nat; 2%nat; 20%nat; 30%nat].
Proof. split; reflexivity. Qed.

Lemma py_sort_perm key rev l l' :
  py_sort key rev l = Ok l' -> l' ≡ₚ l.
Proof.
  unfold py_sort. destruct (compute_keys key l) as [kl|] eqn:E; [|done].
  intros [= <-]. apply compute_keys_inv in E as [<- _].
  apply fmap_Permutation.
  destruct rev; [|apply stable_sort_perm].
  by rewrite reverse_Permutation, stable_sort_perm, reverse_Permutation.
Qed.

Lemma py_sort_keys key rev l l' :
  py_sort key rev l = Ok l' ->
  exists kl, compute_keys key l' = Ok kl /\ StronglySorted (key_rel rev) kl.
Proof.
  unfold py_sort. destruct (compute_keys key l) as [kl|] eqn:E; [|done].
  intros [= <-]. apply compute_keys_inv in E as [_ Hk].
  eexists. split.
  - apply compute_keys_keyed. unfold keyed in *.
    destruct rev.
    + by rewrite reverse_Permutation, stable_sort_perm, reverse_Permutation.
    + by rewrite stable_sort_perm.
  - destruct rev; [apply reverse_sorted|]; apply stable_sort_sorted.
Qed.


End SortLemmas.


(** ** The order collections *)

Lemma side_sorted_iff (rev : bool) (h : gmap ref Order) (l : list ref) :
  side_sorted rev h l = true <->
  exists kl, compute_keys (sort_key_of h) l = Ok kl /\
             StronglySorted (key_rel rev) kl.
Proof.
  unfold side_sorted.
  destruct (compute_keys (sort_key_of h) l) as [kl|e].
  - rewrite sortedb_key_rel. split; [eauto |].
    by intros (kl' & [= <-] & H).
  - split; [done | by intros (? & ? & _)].
Qed.

Lemma py_sort_side_sorted (rev : bool) (h : gmap ref Order) (l l' : list ref) :
  py_sort (sort_key_of h) rev l = Ok l' -> side_sorted rev h l' = true.
Proof. intros H. apply side_sorted_iff. by eapply py_sort_keys. Qed.



(** What [add_order] does for a BUY order: the index entry is written, the
    order is appended to the bid list, and the list is sorted unless a key
    cannot be computed. *)
Lemma add_order_buy {X} (w : @World X) r o :
  heap (env w) !! r = Some o -> side o = BUY ->
  exists res l',
    add_order r w =
      (res,
       {| env := {| core := with_orders_bid (fun _ => l')
                              (with_orders (insert (client_order_id o) r)
                                           (core (env w)));
                    heap := heap (env w); ext := ext (env w) |};
          trace := trace w |}) /\
    l' ≡ₚ _orders_bid (core (env w)) ++ [r] /\
    (res = Ok tt -> side_sorted true (heap (env w)) l' = true).
Proof.
  intros Hr Hs. unfold add_order, _add_order.
  rewrite (bind_ok _ _ _ _ _ (read_some _ _ _ Hr)).
  unfold mbind at 1, M_bind at 1, modify_core at 1.
  erewrite bind_ok by (apply read_some; exact Hr).
  rewrite Hs.
  unfold _sort_bid_orders, mbind, M_bind, modify_core, get_core, get_heap,
    lift_res. simpl.
  destruct (py_sort _ _ _) as [l'|e] eqn:E.
  - exists (Ok tt), l'. split; [done |]. split.
    + by eapply py_sort_perm.
    + intros _. by eapply py_sort_side_sorted.
  - exists (Raise e), (_orders_bid (core (env w)) ++ [r]).
    split; [done |]. split; [done | discriminate].
Qed.

Lemma add_order_sell {X} (w : @World X) r o :
  heap (env w) !! r = Some o -> side o = SELL ->
  exists res l',
    add_order r w =
      (res,
       {| env := {| core := with_orders_ask (fun _ => l')
                              (with_orders (insert (client_order_id o) r)
                                           (core (env w)));
                    heap := heap (env w); ext := ext (env w) |};
          trace := trace w |}) /\
    l' ≡ₚ _orders_ask (core (env w)) ++ [r] /\
    (res = Ok tt -> side_sorted false (heap (env w)) l' = true).
Proof.
  intros Hr Hs. unfold add_order, _add_order.
  rewrite (bind_ok _ _ _ _ _ (read_some _ _ _ Hr)).
  unfold mbind at 1, M_bind at 1, modify_core at 1.
  erewrite bind_ok by (apply read_some; exact Hr).
  rewrite Hs.
  unfold _sort_ask_orders, mbind, M_bind, modify_core, get_core, get_heap,
    lift_res. simpl.
  destruct (py_sort _ _ _) as [l'|e] eqn:E.
  - exists (Ok tt), l'. split; [done |]. split.
    + by eapply py_sort_perm.
    + intros _. by eapply py_sort_side_sorted.
  - exists (Raise e), (_orders_ask (core (env w)) ++ [r]).
    split; [done |]. split; [done | discriminate].
Qed.

(** What [delete_order] does, by side. *)
Lemma delete_order_buy {X} (w : @World X) r o :
  heap (env w) !! r = Some o -> side o = BUY ->
  delete_order r w =
    (Ok tt,
     {| env := {| core :=
                    with_orders_bid
                      (fun l => if py_in (heap (env w)) r l
                                then py_remove (heap (env w)) r l else l)
                      (with_orders (delete (client_order_id o))
                                   (core (env w)));
                  heap := heap (env w); ext := ext (env w) |};
        trace := trace w |}).
Proof.
  intros Hr Hs. unfold delete_order.
  rewrite (bind_ok _ _ _ _ _ (read_some _ _ _ Hr)).
  unfold mbind at 1, M_bind at 1, modify_core at 1.
  erewrite bind_ok by (apply read_some; exact Hr).
  rewrite Hs.
  unfold mbind, M_bind, modify_core, get_core, get_heap, mret, M_ret. simpl.
  unfold with_orders_bid, with_orders; simpl.
  by destruct (py_in _ _ _).
Qed.

Lemma delete_order_sell {X} (w : @World X) r o :
  heap (env w) !! r = Some o -> side o = SELL ->
  delete_order r w =
    (Ok tt,
     {| env := {| core :=
                    with_orders_ask
                      (fun l => if py_in (heap (env w)) r l
                                then py_remove (heap (env w)) r l else l)
                      (with_orders (delete (client_order_id o))
                                   (core (env w)));
                  heap := heap (env w); ext := ext (env w) |};
        trace := trace w |}).
Proof.
  intros Hr Hs. unfold delete_order.
  rewrite (bind_ok _ _ _ _ _ (read_some _ _ _ Hr)).
  unfold mbind at 1, M_bind at 1, modify_core at 1.
  erewrite bind_ok by (apply read_some; exact Hr).
  rewrite Hs.
  unfold mbind, M_bind, modify_core, get_core, get_heap, mret, M_ret. simpl.
  unfold with_orders_ask, with_orders; simpl.
  by destruct (py_in _ _ _).
Qed.

Lemma delete_order_dangling {X} (w : @World X) r :
  heap (env w) !! r = None ->
  delete_order r w = (Raise ReferenceError, w).
Proof.
  intros Hr. unfold delete_order.
  by rewrite (bind_raise _ _ _ _ _ (read_none _ _ Hr)).
Qed.

Lemma order_eq_refl h r : order_eq h r r = true.
Proof. unfold order_eq. by rewrite bool_decide_eq_true_2. Qed.

Lemma py_in_elem h r l : r ∈ l -> py_in h r l = true.
Proof.
  intros H. unfold py_in. apply existsb_exists. exists r.
  split; [by apply list_elem_of_In | apply order_eq_refl].
Qed.

Lemma py_in_count h r l : py_in h r l = true <-> (0 < count_eq h r l)%nat.
Proof.
  unfold py_in, count_eq. induction l as [|y t IH]; simpl.
  - split; [done | lia].
  - rewrite filter_cons. case_decide as E.
    + rewrite E. simpl. split; [lia | done].
    + apply not_true_is_false in E. by rewrite E.
Qed.

Lemma py_remove_count h r l :
  py_in h r l = true ->
  count_eq h r l = S (count_eq h r (py_remove h r l)).
Proof.
  unfold py_in, count_eq. induction l as [|y t IH]; simpl; [done |].
  rewrite filter_cons. case_decide as E.
  - by rewrite E.
  - apply not_true_is_false in E. rewrite E. simpl. intros H.
    rewrite filter_cons, decide_False by (by rewrite E). auto.
Qed.

Lemma py_remove_length h r l :
  py_in h r l = true -> length l = S (length (py_remove h r l)).
Proof.
  unfold py_in. induction l as [|y t IH]; simpl; [done |].
  destruct (order_eq h y r) eqn:E; simpl; [done |]. intros H. by rewrite IH.
Qed.






Ltac proj_simpl :=
  cbn [fst snd env core heap ext trace with_orders_bid with_orders_ask
       with_orders _orders _orders_bid _orders_ask side_list get_order
       get_orders_bid get_orders_ask order_exists].


(** ** Duplicates *)




(** ** Deleting twice *)




(** After one guarded removal nothing equal to [r] is left, provided at most
    one item was equal to it. *)
Lemma py_remove_guarded_idemp h r (l : list ref) :
  (count_eq h r l <= 1)%nat ->
  let l1 := if py_in h r l then py_remove h r l else l in
  (if py_in h r l1 then py_remove h r l1 else l1) = l1.
Proof.
  intros Hc l1. subst l1.
  destruct (py_in h r l) eqn:Hin.
  - pose proof (py_remove_count _ _ _ Hin) as Hn.
    destruct (py_in h r (py_remove h r l)) eqn:Hin'; [|done].
    apply py_in_count in Hin'. lia.
  - by rewrite Hin.
Qed.

(** C8, as the code has it: a second [delete_order] changes nothing and has
    the same outcome as the first, provided at most one item of the order's
    side list compares equal to the order; and deleting an order that is
    neither indexed nor listed leaves the core as it is. *)
Theorem delete_order_idempotent_without_duplicates {X} (w : @World X) r :
  (forall o, heap (env w) !! r = Some o ->
     (count_eq (heap (env w)) r (side_list (core (env w)) (side o))
      <= 1)%nat) ->
  delete_order r (delete_order r w).2 = delete_order r w /\
  (forall o, heap (env w) !! r = Some o ->
     _orders (core (env w)) !! client_order_id o = None ->
     py_in (heap (env w)) r (side_list (core (env w)) (side o)) = false ->
     (delete_order r w).2 = w).
Proof.
  intros Hc.
  destruct (heap (env w) !! r) as [o|] eqn:Hr.
  2:{ rewrite (delete_order_dangling w r Hr). cbn [snd].
      split; [by apply delete_order_dangling | by intros o [=]]. }
  specialize (Hc o eq_refl).
  destruct (side o) eqn:Hs.
  - rewrite (delete_order_buy w r o Hr Hs). cbn [snd]. split.
    + match goal with
      | |- delete_order r ?w1 = _ => rewrite (delete_order_buy w1 r o Hr Hs)
      end.
      unfold with_orders_bid, with_orders_ask, with_orders; proj_simpl.
      cbn [side_list] in Hc.
      rewrite (py_remove_guarded_idemp _ _ _ Hc).
      by rewrite delete_delete_eq.
    + intros o' [= <-] Hn Hin. rewrite Hs in Hin. cbn [side_list] in Hin.
      unfold with_orders_bid, with_orders. proj_simpl. rewrite Hin.
      rewrite (delete_id _ _ Hn). destruct w as [[c h x] t].
      by destruct c.
  - rewrite (delete_order_sell w r o Hr Hs). cbn [snd]. split.
    + match goal with
      | |- delete_order r ?w1 = _ => rewrite (delete_order_sell w1 r o Hr Hs)
      end.
      unfold with_orders_bid, with_orders_ask, with_orders; proj_simpl.
      cbn [side_list] in Hc.
      rewrite (py_remove_guarded_idemp _ _ _ Hc).
      by rewrite delete_delete_eq.
    + intros o' [= <-] Hn Hin. rewrite Hs in Hin. cbn [side_list] in Hin.
      unfold with_orders_ask, with_orders. proj_simpl. rewrite Hin.
      rewrite (delete_id _ _ Hn). destruct w as [[c h x] t].
      by destruct c.
  - rewrite (delete_order_invalid w r o Hr Hs). cbn [snd]. split.
    + match goal with
      | |- delete_order r ?w1 = _ => rewrite (delete_order_invalid w1 r o Hr Hs)
      end.
      unfold with_orders; proj_simpl. by rewrite delete_delete_eq.
    + intros o' [= <-] Hn _.
      unfold with_orders. proj_simpl.
      rewrite (delete_id _ _ Hn). destruct w as [[c h x] t].
      by destruct c.
Qed.

Lemma delete_order_idempotent_without_duplicates_witness :
  (count_eq (heap (env Examples.w_single)) 1%nat
            (side_list (core (env Examples.w_single)) BUY) <= 1)%nat /\
  delete_order 1%nat (delete_order 1%nat Examples.w_single).2
    = delete_order 1%nat Examples.w_single.
Proof.
  split; [vm_compute; lia |].
  refine (proj1 (delete_order_idempotent_without_duplicates
                   Examples.w_single 1%nat _)).
  intros o H. vm_compute in H. injection H as <-. vm_compute. lia.
Defined.

(** C8 as claimed fails on a state reached by adding the same order twice:
    the first [delete_order] leaves one occurrence on the bid list, the
    second removes it. *)
Lemma delete_order_twice_differs :
  let w1 := (delete_order 1%nat Examples.w_dup).2 in
  let w2 := (delete_order 1%nat w1).2 in
  get_orders_bid (core (env Examples.w_dup)) = [1%nat; 1%nat] /\
  get_orders_bid (core (env w1)) = [1%nat] /\
  get_orders_bid (core (env w2)) = [] /\
  w2 <> w1.
Proof.
  cbv zeta.
  assert (H1 : get_orders_bid
                 (core (env (delete_order 1%nat Examples.w_dup).2))
               = [1%nat]) by (vm_compute; reflexivity).
  assert (H2 : get_orders_bid
                 (core (env (delete_order 1%nat
                               (delete_order 1%nat Examples.w_dup).2).2))
               = []) by (vm_compute; reflexivity).
  split; [vm_compute; reflexivity |].
  split; [exact H1 |]. split; [exact H2 |].
  intros E. rewrite E, H1 in H2. discriminate.
Qed.


(** ** Conditional limit orders *)

Lemma alter_present {V} (f : V -> V) (h : gmap ref V) r v :
  h !! r = Some v -> alter f r h = <[r := f v]> h.
Proof.
  intros H. apply map_eq. intros i. destruct (decide (r = i)) as [<-|Hne].
  - by rewrite lookup_alter_eq, lookup_insert_eq, H.
  - by rewrite lookup_alter_ne, lookup_insert_ne.
Qed.

Ltac run_m :=
  unfold check, get_price, get_trigger_price, assign_order_liquidity,
    set_liquidity_side, set_triggered_price_c, invoke, emit, run_callback,
    write, read, get_core, get_heap, lift_res, mbind, M_bind, mret, M_ret;
  cbn [fst snd env core heap ext trace attr_or_raise].

(** The part both matchers share, from the liquidity-side assignment on. *)
Lemma activation_tail {X} (trig filll : @Callback X) r initial
    (w1 : @World X) o1 p t :
  heap (env w1) !! r = Some o1 ->
  price o1 = Some p ->
  trigger_price o1 = Some t ->
  (assign_order_liquidity r initial ≫= fun _ =>
   invoke (EvTriggerStop r) trig r ≫= fun _ =>
   check is_limit_matched price r ≫= fun b' : bool =>
   if b' then
     set_liquidity_side r TAKER ≫= fun _ =>
     invoke (EvFillLimit r) filll r
   else mret tt) w1
  = activate trig filll r
      (activated o1 (triggered_price o1)
         (_determine_order_liquidity initial (side o1) p t)) w1.
Proof.
  intros Hr Hp Ht. run_m. rewrite Hr. cbn. rewrite Hp, Ht. cbn.
  rewrite (alter_present _ _ _ _ Hr).
  unfold activate, after_trigger, limit_matched_now, activated,
    set_liquidity_side_attr.
  destruct (trig r _) as [[[]|e] e2]; [|done]. cbn.
  destruct (heap e2 !! r) as [o2|]; [|done].
  destruct (price o2) as [p2|]; [|done]. cbn.
  by destruct (is_limit_matched (core e2) (side o2) p2) as [[|]|].
Qed.

Lemma stop_limit_activation {X} (trig filll : @Callback X) r initial
    (w : @World X) o p t :
  heap (env w) !! r = Some o ->
  is_triggered o = false ->
  price o = Some p ->
  trigger_price o = Some t ->
  is_stop_triggered (core (env w)) (side o) t = Ok true ->
  match_stop_limit_order trig filll r initial w
  = activate trig filll r
      (activated o (Some t)
         (_determine_order_liquidity initial (side o) p t)) w.
Proof.
  intros Hr Htr Hp Ht Hstop. unfold match_stop_limit_order.
  rewrite (bind_ok _ _ _ _ _ (read_some _ _ _ Hr)), Htr.
  assert (Hc : check is_stop_triggered trigger_price r w = (Ok true, w)).
  { run_m. rewrite Hr. cbn. rewrite Ht. cbn. by rewrite Hstop. }
  rewrite (bind_ok _ _ _ _ _ Hc).
  assert (Hg : get_trigger_price r w = (Ok t, w)).
  { run_m. rewrite Hr. cbn. by rewrite Ht. }
  rewrite (bind_ok _ _ _ _ _ Hg).
  unfold set_triggered_price_c at 1, write at 1, mbind at 1, M_bind at 1.
  rewrite (alter_present _ _ _ _ Hr).
  erewrite activation_tail;
    [| cbn; apply lookup_insert_eq | exact Hp | exact Ht].
  unfold activate. cbn. by rewrite insert_insert_eq.
Qed.

Lemma limit_if_touched_activation {X} (trig filll : @Callback X) r initial
    (w : @World X) o p t :
  heap (env w) !! r = Some o ->
  is_triggered o = false ->
  price o = Some p ->
  trigger_price o = Some t ->
  is_touch_triggered (core (env w)) (side o) t = Ok true ->
  match_limit_if_touched_order trig filll r initial w
  = activate trig filll r
      (activated o (if initial then triggered_price o else Some t)
         (_determine_order_liquidity initial (side o) p t)) w.
Proof.
  intros Hr Htr Hp Ht Htouch. unfold match_limit_if_touched_order.
  rewrite (bind_ok _ _ _ _ _ (read_some _ _ _ Hr)), Htr.
  assert (Hc : check is_touch_triggered trigger_price r w = (Ok true, w)).
  { run_m. rewrite Hr. cbn. rewrite Ht. cbn. by rewrite Htouch. }
  rewrite (bind_ok _ _ _ _ _ Hc).
  destruct initial; cbn [negb].
  - rewrite (bind_ok _ _ w tt w) by done.
    by erewrite activation_tail.
  - assert (Hg : get_trigger_price r w = (Ok t, w)).
    { run_m. rewrite Hr. cbn. by rewrite Ht. }
    match goal with
    | |- (?m ≫= ?f) w = _ =>
        assert (Hset : m w =
          (Ok tt, {| env := {| core := core (env w);
                               heap := <[r := set_triggered_price_attr t o]>
                                         (heap (env w));
                               ext := ext (env w) |};
                     trace := trace w |}))
    end.
    { rewrite (bind_ok _ _ _ _ _ Hg).
      unfold set_triggered_price_c, write.
      by rewrite (alter_present _ _ _ _ Hr). }
    rewrite (bind_ok _ _ _ _ _ Hset).
    erewrite activation_tail;
      [| cbn; apply lookup_insert_eq | exact Hp | exact Ht].
    unfold activate. cbn. by rewrite insert_insert_eq.
Qed.

Lemma not_triggered_noop {X}
    (pred : MatchingCore -> OrderSide -> Price -> Res bool)
    r (w : @World X) o t :
  heap (env w) !! r = Some o ->
  trigger_price o = Some t ->
  check pred trigger_price r w = (pred (core (env w)) (side o) t, w).
Proof. intros Hr Ht. run_m. rewrite Hr. cbn. by rewrite Ht. Qed.


Lemma match_order_dispatch_stop_limit {X} (trig fillm filll : @Callback X)
    r initial (w : @World X) o :
  heap (env w) !! r = Some o ->
  order_type o = STOP_LIMIT \/ order_type o = TRAILING_STOP_LIMIT ->
  match_order trig fillm filll r initial w
  = match_stop_limit_order trig filll r initial
      {| env := env w; trace := trace w ++ [EvMatch r initial] |}.
Proof.
  intros Hr Hty. unfold match_order, emit, mbind at 1, M_bind at 1.
  erewrite bind_ok by (apply read_some; exact Hr).
  by destruct Hty as [-> | ->].
Qed.

(** C3: for an untriggered STOP_LIMIT or TRAILING_STOP_LIMIT order,
    [match_stop_limit_order] does nothing unless [is_stop_triggered] holds.
    When it holds the order gets its triggered price and the liquidity side
    of the determination rule, then [trigger_stop_order] is invoked, and
    then, with [is_limit_matched] evaluated in the state the callback left,
    either the liquidity side becomes TAKER and [fill_limit_order] is invoked
    or no fill callback is invoked at all. *)
Theorem match_stop_limit_order_untriggered {X}
    (trig fillm filll : @Callback X) r initial (w : @World X) o p t :
  heap (env w) !! r = Some o ->
  order_type o = STOP_LIMIT \/ order_type o = TRAILING_STOP_LIMIT ->
  is_triggered o = false ->
  price o = Some p ->
  trigger_price o = Some t ->
  let o' := activated o (Some t)
              (_determine_order_liquidity initial (side o) p t) in
  let e1 := {| core := core (env w); heap := <[r := o']> (heap (env w));
               ext := ext (env w) |} in
  let run := match_stop_limit_order trig filll r initial w in
  (is_stop_triggered (core (env w)) (side o) t = Ok false ->
     run = (Ok tt, w)) /\
  (forall e, is_stop_triggered (core (env w)) (side o) t = Raise e ->
     run = (Raise e, w)) /\
  (is_stop_triggered (core (env w)) (side o) t = Ok true ->
     run = activate trig filll r o' w /\
     (forall e e2, trig r e1 = (Raise e, e2) ->
        run = (Raise e,
               {| env := e2; trace := trace w ++ [EvTriggerStop r] |})) /\
     (forall e2, trig r e1 = (Ok tt, e2) ->
        limit_matched_now e2 r = Ok false ->
        run = (Ok tt,
               {| env := e2; trace := trace w ++ [EvTriggerStop r] |})) /\
     (forall e2, trig r e1 = (Ok tt, e2) ->
        limit_matched_now e2 r = Ok true ->
        run = ((filll r {| core := core e2;
                           heap := alter (set_liquidity_side_attr TAKER) r
                                         (heap e2);
                           ext := ext e2 |}).1,
               {| env := (filll r {| core := core e2;
                             heap := alter (set_liquidity_side_attr TAKER) r
                                           (heap e2);
                             ext := ext e2 |}).2;
                  trace := trace w ++ [EvTriggerStop r; EvFillLimit r] |})))
  /\
  match_order trig fillm filll r initial w
  = match_stop_limit_order trig filll r initial
      {| env := env w; trace := trace w ++ [EvMatch r initial] |}.
Proof.
  intros Hr Hty Htr Hp Ht o' e1 run.
  assert (Hchk := not_triggered_noop is_stop_triggered r w o t Hr Ht).
  split; [|split; [|split]].
  - intros Hf. subst run. unfold match_stop_limit_order.
    rewrite (bind_ok _ _ _ _ _ (read_some _ _ _ Hr)), Htr.
    rewrite Hf in Hchk. by rewrite (bind_ok _ _ _ _ _ Hchk).
  - intros e Hf. subst run. unfold match_stop_limit_order.
    rewrite (bind_ok _ _ _ _ _ (read_some _ _ _ Hr)), Htr.
    rewrite Hf in Hchk. by rewrite (bind_raise _ _ _ _ _ Hchk).
  - intros Hs.
    assert (Hrun : run = activate trig filll r o' w)
      by (by apply stop_limit_activation).
    split; [exact Hrun |]. rewrite Hrun. unfold activate. fold e1.
    split; [|split].
    + intros e e2 ->. done.
    + intros e2 -> Hl. unfold after_trigger. cbn. by rewrite Hl.
    + intros e2 -> Hl. unfold after_trigger. cbn. rewrite Hl.
      destruct (filll r _) as [res' e3]. cbn. by rewrite <- app_assoc.
  - by apply (match_order_dispatch_stop_limit _ _ _ _ _ _ o).
Qed.

Lemma match_stop_limit_order_untriggered_witness :
  heap (env Examples.w_stop_limit) !! 1%nat = Some Examples.stop_limit_buy /\
  is_stop_triggered (core (env Examples.w_stop_limit)) BUY (Examples.px 10050)
    = Ok true /\
  match_stop_limit_order Examples.cb_trigger Examples.cb_fill 1%nat false
    Examples.w_stop_limit
  = activate Examples.cb_trigger Examples.cb_fill 1%nat
      (activated Examples.stop_limit_buy (Some (Examples.px 10050)) TAKER)
      Examples.w_stop_limit.
Proof.
  split; [reflexivity | split; [reflexivity |]].
  exact (proj1 (proj1 (proj2 (proj2
    (match_stop_limit_order_untriggered
       Examples.cb_trigger Examples.cb_noop Examples.cb_fill 1%nat false
       Examples.w_stop_limit Examples.stop_limit_buy
       (Examples.px 10200) (Examples.px 10050)
       eq_refl (or_introl eq_refl) eq_refl eq_refl eq_refl))) eq_refl)).
Defined.

(** Spec scenario 3, run on the model. *)
Example scenario_stop_limit_marketable :
  let '(res, w') := match_order Examples.cb_trigger Examples.cb_noop
                      Examples.cb_fill 1%nat false Examples.w_stop_limit in
  res = Ok tt /\
  trace w' = [EvMatch 1%nat false; EvTriggerStop 1%nat; EvFillLimit 1%nat] /\
  heap (env w') !! 1%nat =
    Some (mkOrder "O-3" BUY STOP_LIMIT (Some (Examples.px 10200))
                  (Some (Examples.px 10050)) true (Some (Examples.px 10050))
                  TAKER true).
Proof. vm_compute. repeat split. Qed.


(** C6: for an untriggered LIMIT_IF_TOUCHED order whose touch condition
    holds, the order handed to [trigger_stop_order] carries the trigger price
    as its triggered price exactly when [initial] is false; with
    [initial = true] the triggered price is the one the order had, and the
    callback, the liquidity side and the fill logic run all the same.  A
    STOP_LIMIT or TRAILING_STOP_LIMIT order gets the trigger price as its
    triggered price whatever [initial] is. *)
Theorem limit_if_touched_triggered_price {X}
    (trig fillm filll : @Callback X) r initial (w : @World X) o p t :
  heap (env w) !! r = Some o ->
  order_type o = LIMIT_IF_TOUCHED ->
  is_triggered o = false ->
  price o = Some p ->
  trigger_price o = Some t ->
  is_touch_triggered (core (env w)) (side o) t = Ok true ->
  let l := _determine_order_liquidity initial (side o) p t in
  match_limit_if_touched_order trig filll r initial w
    = activate trig filll r
        (activated o (if initial then triggered_price o else Some t) l) w /\
  match_limit_if_touched_order trig filll r true w
    = activate trig filll r (activated o (triggered_price o) TAKER) w /\
  match_limit_if_touched_order trig filll r false w
    = activate trig filll r
        (activated o (Some t)
                   (_determine_order_liquidity false (side o) p t)) w /\
  match_order trig fillm filll r initial w
    = match_limit_if_touched_order trig filll r initial
        {| env := env w; trace := trace w ++ [EvMatch r initial] |} /\
  (forall r' o' p' t',
     heap (env w) !! r' = Some o' ->
     order_type o' = STOP_LIMIT \/ order_type o' = TRAILING_STOP_LIMIT ->
     is_triggered o' = false ->
     price o' = Some p' ->
     trigger_price o' = Some t' ->
     is_stop_triggered (core (env w)) (side o') t' = Ok true ->
     match_stop_limit_order trig filll r' initial w
       = activate trig filll r'
           (activated o' (Some t')
              (_determine_order_liquidity initial (side o') p' t')) w).
Proof.
  intros Hr Hty Htr Hp Ht Htouch l.
  split; [by apply limit_if_touched_activation |].
  split; [by apply (limit_if_touched_activation _ _ _ true _ _ p t) |].
  split; [by apply (limit_if_touched_activation _ _ _ false) |].
  split.
  - unfold match_order, emit, mbind at 1, M_bind at 1.
    erewrite bind_ok by (apply read_some; exact Hr).
    by rewrite Hty.
  - intros r' o' p' t' Hr' _ Htr' Hp' Ht' Hstop.
    by apply stop_limit_activation.
Qed.

Lemma limit_if_touched_triggered_price_witness :
  heap (env Examples.w_lit) !! 1%nat = Some Examples.lit_buy /\
  is_touch_triggered (core (env Examples.w_lit)) BUY (Examples.px 10050)
    = Ok true /\
  match_limit_if_touched_order Examples.cb_trigger Examples.cb_fill 1%nat true
    Examples.w_lit
  = activate Examples.cb_trigger Examples.cb_fill 1%nat
      (activated Examples.lit_buy None TAKER) Examples.w_lit.
Proof.
  split; [reflexivity | split; [reflexivity |]].
  exact (proj1 (limit_if_touched_triggered_price
    Examples.cb_trigger Examples.cb_noop Examples.cb_fill 1%nat true
    Examples.w_lit Examples.lit_buy (Examples.px 9950) (Examples.px 10050)
    eq_refl eq_refl eq_refl eq_refl eq_refl eq_refl)).
Defined.

(** Spec scenario 4, run on the model: on the initial match the triggered
    price stays unset, on a later match it becomes the trigger price; the
    limit at 99.50 is not matched by an ask of 100.00 either way. *)
Example scenario_limit_if_touched_initial :
  let '(res, w') := match_order Examples.cb_trigger Examples.cb_noop
                      Examples.cb_fill 1%nat true Examples.w_lit in
  res = Ok tt /\
  trace w' = [EvMatch 1%nat true; EvTriggerStop 1%nat] /\
  (triggered_price <$> heap (env w') !! 1%nat) = Some None /\
  (liquidity_side <$> heap (env w') !! 1%nat) = Some TAKER.
Proof. vm_compute. repeat split. Qed.

Example scenario_limit_if_touched_later :
  let '(res, w') := match_order Examples.cb_trigger Examples.cb_noop
                      Examples.cb_fill 1%nat false Examples.w_lit in
  res = Ok tt /\
  trace w' = [EvMatch 1%nat false; EvTriggerStop 1%nat] /\
  (triggered_price <$> heap (env w') !! 1%nat)
    = Some (Some (Examples.px 10050)) /\
  (liquidity_side <$> heap (env w') !! 1%nat) = Some MAKER.
Proof. vm_compute. repeat split. Qed.


(** ** What a matcher can do to the world

    Every matcher is a sequence of reads, two kinds of attribute writes,
    ghost events and callback invocations.  A relation between the world
    before and after that is reflexive, transitive and holds for each of
    those steps therefore holds for every matcher. *)

Section Steps.
Context {X : Type}.
Variables trig fillm filll : @Callback X.
Variable R : @World X -> @World X -> Prop.
Hypothesis R_refl : forall w, R w w.
Hypothesis R_trans : forall w1 w2 w3, R w1 w2 -> R w2 w3 -> R w1 w3.
Hypothesis R_emit : forall ev w,
  (forall r i, ev <> EvMatch r i) ->
  R w {| env := env w; trace := trace w ++ [ev] |}.
Hypothesis R_liquidity : forall r l w, R w (set_liquidity_side r l w).2.
Hypothesis R_triggered_price : forall r p w,
  R w (set_triggered_price_c r p w).2.
Hypothesis R_trig : forall r w, R w (run_callback trig r w).2.
Hypothesis R_fillm : forall r w, R w (run_callback fillm r w).2.
Hypothesis R_filll : forall r w, R w (run_callback filll r w).2.

#[local] Abbreviation steps := (steps R).

Lemma steps_ret {A} (a : A) : steps (mret a).
Proof. intros w. apply R_refl. Qed.

Lemma steps_bind {A B} (m : @M X A) (f : A -> @M X B) :
  steps m -> (forall a, steps (f a)) -> steps (m ≫= f).
Proof.
  intros Hm Hf w. unfold mbind, M_bind.
  specialize (Hm w). destruct (m w) as [[a|e] w']; cbn in *; [|done].
  eapply R_trans; [exact Hm | apply Hf].
Qed.

Lemma steps_read r : steps (read r).
Proof. intros w. unfold read. destruct (_ !! _); apply R_refl. Qed.

Lemma steps_lift_res {A} (x : Res A) : steps (lift_res x).
Proof. intros w. apply R_refl. Qed.

Lemma steps_get_core : steps get_core.
Proof. intros w. apply R_refl. Qed.

Lemma steps_check pred arg r : steps (check pred arg r).
Proof.
  unfold check.
  repeat (apply steps_bind; [|intros ?]);
    auto using steps_read, steps_lift_res, steps_get_core.
Qed.

Lemma steps_get_trigger_price r : steps (get_trigger_price r).
Proof.
  unfold get_trigger_price.
  apply steps_bind; [apply steps_read | intros ?; apply steps_lift_res].
Qed.

Lemma steps_assign_order_liquidity r initial :
  steps (assign_order_liquidity r initial).
Proof.
  unfold assign_order_liquidity.
  repeat (apply steps_bind; [|intros ?]);
    auto using steps_read, steps_lift_res.
  intros w. apply R_liquidity.
Qed.

Lemma steps_invoke_trig r : steps (invoke (EvTriggerStop r) trig r).
Proof.
  unfold invoke. apply steps_bind; [|intros _; intros w; apply R_trig].
  intros w. by apply R_emit.
Qed.

Lemma steps_invoke_fillm r : steps (invoke (EvFillMarket r) fillm r).
Proof.
  unfold invoke. apply steps_bind; [|intros _; intros w; apply R_fillm].
  intros w. by apply R_emit.
Qed.

Lemma steps_invoke_filll r : steps (invoke (EvFillLimit r) filll r).
Proof.
  unfold invoke. apply steps_bind; [|intros _; intros w; apply R_filll].
  intros w. by apply R_emit.
Qed.

Ltac steps_tac :=
  repeat first
    [ apply steps_ret
    | apply steps_read
    | apply steps_check
    | apply steps_get_trigger_price
    | apply steps_assign_order_liquidity
    | apply steps_invoke_trig
    | apply steps_invoke_fillm
    | apply steps_invoke_filll
    | (intros w; apply R_liquidity)
    | (intros w; apply R_triggered_price)
    | (apply steps_bind; [|intros ?])
    | match goal with
      | |- steps (if ?b then _ else _) => destruct b
      end ].

Lemma steps_match_limit_order r : steps (match_limit_order filll r).
Proof. unfold match_limit_order. steps_tac. Qed.

Lemma steps_match_stop_market_order r :
  steps (match_stop_market_order fillm r).
Proof. unfold match_stop_market_order. steps_tac. Qed.

Lemma steps_match_market_if_touched_order r :
  steps (match_market_if_touched_order fillm r).
Proof. unfold match_market_if_touched_order. steps_tac. Qed.

Lemma steps_match_stop_limit_order r initial :
  steps (match_stop_limit_order trig filll r initial).
Proof. unfold match_stop_limit_order. steps_tac. Qed.

Lemma steps_match_limit_if_touched_order r initial :
  steps (match_limit_if_touched_order trig filll r initial).
Proof. unfold match_limit_if_touched_order. steps_tac. Qed.

(** [match_order], from its entry event on. *)
Lemma steps_match_order r initial w :
  R {| env := env w; trace := trace w ++ [EvMatch r initial] |}
    (match_order trig fillm filll r initial w).2.
Proof.
  unfold match_order, emit, mbind at 1, M_bind at 1.
  set (w0 := {| env := env w; trace := trace w ++ [EvMatch r initial] |}).
  assert (H : steps (
    read r ≫= fun o =>
    match order_type o with
    | LIMIT | MARKET_TO_LIMIT => match_limit_order filll r
    | STOP_LIMIT | TRAILING_STOP_LIMIT =>
        match_stop_limit_order trig filll r initial
    | STOP_MARKET | TRAILING_STOP_MARKET => match_stop_market_order fillm r
    | LIMIT_IF_TOUCHED => match_limit_if_touched_order trig filll r initial
    | MARKET_IF_TOUCHED => match_market_if_touched_order fillm r
    | MARKET => raise TypeError
    end)).
  { apply steps_bind; [apply steps_read |]. intros o.
    destruct (order_type o);
      auto using steps_match_limit_order, steps_match_stop_market_order,
        steps_match_market_if_touched_order, steps_match_stop_limit_order,
        steps_match_limit_if_touched_order. }
  apply H.
Qed.

End Steps.


(** ** The sweep *)

Section Sweep.
Context {X : Type}.
Variables trig fillm filll : @Callback X.
Implicit Types w : @World X.

Lemma matched_app (t1 t2 : list Event) :
  matched (t1 ++ t2) = matched t1 ++ matched t2.
Proof. unfold matched. apply omap_app. Qed.

Lemma matched_cons_match r i (t : list Event) :
  matched (EvMatch r i :: t) = r :: matched t.
Proof. done. Qed.

Lemma quiet_step_refl w : quiet_step w w.
Proof. exists []. by rewrite app_nil_r. Qed.

Lemma quiet_step_trans w1 w2 w3 :
  quiet_step w1 w2 -> quiet_step w2 w3 -> quiet_step w1 w3.
Proof.
  intros (n1 & E1 & M1) (n2 & E2 & M2). exists (n1 ++ n2).
  split; [by rewrite E2, E1, app_assoc |].
  by rewrite matched_app, M1, M2.
Qed.

Lemma quiet_step_emit ev w :
  (forall r i, ev <> EvMatch r i) ->
  quiet_step w {| env := env w; trace := trace w ++ [ev] |}.
Proof.
  intros H. exists [ev]. split; [done |].
  destruct ev; [by destruct (H r initial) | done..].
Qed.

Lemma quiet_step_callback (cb : @Callback X) r w :
  quiet_step w (run_callback cb r w).2.
Proof.
  unfold run_callback. destruct (cb r (env w)).
  exists []. by rewrite app_nil_r.
Qed.

(** [match_order] logs its own call and nothing else that is a call of
    [match_order]. *)
Lemma match_order_trace r initial w :
  exists new,
    trace (match_order trig fillm filll r initial w).2
      = trace w ++ EvMatch r initial :: new /\
    matched new = [].
Proof.
  destruct (steps_match_order trig fillm filll quiet_step
              quiet_step_refl quiet_step_trans quiet_step_emit
              (fun r l w => quiet_step_refl _)
              (fun r p w => quiet_step_refl _)
              (quiet_step_callback trig) (quiet_step_callback fillm)
              (quiet_step_callback filll) r initial w) as (new & E & M).
  exists new. split; [|done]. cbn in E. by rewrite E, <- app_assoc.
Qed.

(** One turn of the loop. *)
Lemma iterate_loop_cons r rest w :
  iterate_loop trig fillm filll (r :: rest) w =
  match heap (env w) !! r with
  | None => (Raise ReferenceError, w)
  | Some o =>
      if is_closed o then iterate_loop trig fillm filll rest w
      else
        match match_order trig fillm filll r false w with
        | (Ok _, w') => iterate_loop trig fillm filll rest w'
        | (Raise e, w') => (Raise e, w')
        end
  end.
Proof.
  cbn [iterate_loop].
  unfold is_closed_c, read, mbind, M_bind, mret, M_ret.
  destruct (heap (env w) !! r) as [o|]; [|done].
  destruct (is_closed o); [done |].
  by destruct (match_order _ _ _ _ _ _) as [[[]|e] w'].
Qed.

(** The loop over a list split in two. *)
Lemma iterate_loop_app pre post w :
  iterate_loop trig fillm filll (pre ++ post) w =
  match iterate_loop trig fillm filll pre w with
  | (Ok _, w1) => iterate_loop trig fillm filll post w1
  | (Raise e, w1) => (Raise e, w1)
  end.
Proof.
  revert w. induction pre as [|r pre IH]; intros w; [done |].
  rewrite <- app_comm_cons, !iterate_loop_cons.
  destruct (heap (env w) !! r) as [o|]; [|done].
  destruct (is_closed o); [apply IH |].
  destruct (match_order _ _ _ _ _ _) as [[[]|e] w']; [apply IH | done].
Qed.

(** The orders the loop calls [match_order] on are picked, in order, from
    the list it was given, each with [initial = false]. *)
Lemma iterate_loop_trace l w :
  exists new,
    trace (iterate_loop trig fillm filll l w).2 = trace w ++ new /\
    matched new `sublist_of` l /\
    (forall r i, EvMatch r i ∈ new -> i = false).
Proof.
  revert w. induction l as [|r rest IH]; intros w.
  - exists []. cbn. rewrite app_nil_r. split; [done |].
    split; [done | by intros ? ? ?%elem_of_nil].
  - rewrite iterate_loop_cons.
    destruct (heap (env w) !! r) as [o|].
    2:{ exists []. cbn. rewrite app_nil_r. split; [done |].
        split; [apply sublist_nil_l | by intros ? ? ?%elem_of_nil]. }
    destruct (is_closed o).
    { destruct (IH w) as (new & E & S & I). exists new.
      split; [done |]. split; [by apply sublist_cons | done]. }
    destruct (match_order_trace r false w) as (n1 & E1 & M1).
    destruct (match_order _ _ _ _ _ _) as [[[]|e] w']; cbn in E1.
    + destruct (IH w') as (n2 & E2 & S2 & I2).
      exists (EvMatch r false :: n1 ++ n2). split.
      { rewrite E2, E1. by rewrite <- app_assoc. }
      split.
      { rewrite matched_cons_match, matched_app, M1. by apply sublist_skip. }
      intros r' i [[= -> ->]|[Hin|Hin]%elem_of_app]%elem_of_cons;
        [done | | by eapply I2].
      exfalso. apply list_elem_of_split in Hin as (a & b & ->).
      rewrite matched_app in M1. cbn in M1.
      by destruct (matched a).
    + exists (EvMatch r false :: n1). split; [done |]. split.
      { rewrite matched_cons_match, M1. apply sublist_skip, sublist_nil_l. }
      intros r' i [[= -> ->]|Hin]%elem_of_cons; [done |].
      exfalso. apply list_elem_of_split in Hin as (a & b & ->).
      rewrite matched_app in M1. cbn in M1.
      by destruct (matched a).
Qed.

End Sweep.

(** ** The last price *)

Lemma same_but_last_fields c1 c2 :
  same_but_last c1 c2 ->
  bid_raw c1 = bid_raw c2 /\ ask_raw c1 = ask_raw c2 /\
  is_bid_initialized c1 = is_bid_initialized c2 /\
  is_ask_initialized c1 = is_ask_initialized c2.
Proof.
  intros H. unfold same_but_last in H.
  repeat split.
  - exact (f_equal bid_raw H).
  - exact (f_equal ask_raw H).
  - exact (f_equal is_bid_initialized H).
  - exact (f_equal is_ask_initialized H).
Qed.

Lemma predicates_ignore_last c1 c2 s p :
  same_but_last c1 c2 ->
  is_limit_matched c1 s p = is_limit_matched c2 s p /\
  is_stop_triggered c1 s p = is_stop_triggered c2 s p /\
  is_touch_triggered c1 s p = is_touch_triggered c2 s p.
Proof.
  intros (Hb & Ha & Hbi & Hai)%same_but_last_fields.
  unfold is_limit_matched, is_stop_triggered, is_touch_triggered.
  by rewrite Hb, Ha, Hbi, Hai.
Qed.

Section LastPrice.
Context {X : Type}.
Variables trig fillm filll : @Callback X.
Hypothesis trig_ignores : ignores_last trig.
Hypothesis fillm_ignores : ignores_last fillm.
Hypothesis filll_ignores : ignores_last filll.

Lemma blind_ret {A} (a : A) : @blind_to_last X A (mret a).
Proof. by intros w1 w2 H. Qed.

Lemma blind_bind {A B} (m : @M X A) (f : A -> @M X B) :
  blind_to_last m -> (forall a, blind_to_last (f a)) ->
  blind_to_last (m ≫= f).
Proof.
  intros Hm Hf w1 w2 H. unfold mbind, M_bind.
  destruct (Hm w1 w2 H) as [E S].
  destruct (m w1) as [[a1|e1] w1'], (m w2) as [[a2|e2] w2']; cbn in *;
    try discriminate.
  - injection E as ->. by apply Hf.
  - injection E as ->. by split.
Qed.

Lemma blind_raise {A} e : @blind_to_last X A (raise e).
Proof. by intros w1 w2 H. Qed.

Lemma blind_lift_res {A} (x : Res A) : @blind_to_last X A (lift_res x).
Proof. by intros w1 w2 H. Qed.

Lemma blind_read r : @blind_to_last X _ (read r).
Proof.
  intros w1 w2 H. unfold read.
  destruct H as ((Hc & Hh & Hx) & Ht). rewrite <- Hh.
  by destruct (heap (env w1) !! r).
Qed.

Lemma blind_write r f : @blind_to_last X _ (write r f).
Proof.
  intros w1 w2 ((Hc & Hh & Hx) & Ht). unfold write. cbn.
  split; [done |]. repeat split; cbn; [done | by rewrite Hh | done | done].
Qed.

Lemma blind_emit ev : @blind_to_last X _ (emit ev).
Proof.
  intros w1 w2 (He & Ht). unfold emit. cbn.
  split; [done |]. split; [done |]. cbn. by rewrite Ht.
Qed.

Lemma blind_run_callback (cb : @Callback X) r :
  ignores_last cb -> blind_to_last (run_callback cb r).
Proof.
  intros Hcb w1 w2 (He & Ht). unfold run_callback.
  destruct (Hcb r _ _ He) as [E S].
  destruct (cb r (env w1)), (cb r (env w2)). cbn in *.
  split; [done |]. by split.
Qed.

Lemma blind_invoke ev (cb : @Callback X) r :
  ignores_last cb -> blind_to_last (invoke ev cb r).
Proof.
  intros Hcb. unfold invoke.
  apply blind_bind; [apply blind_emit | intros _].
  by apply blind_run_callback.
Qed.

(** The predicates read the core, which differs, but not its last price. *)
Lemma blind_check pred arg r :
  (forall c1 c2 s p, same_but_last c1 c2 -> pred c1 s p = pred c2 s p) ->
  @blind_to_last X _ (check pred arg r).
Proof.
  intros Hpred w1 w2 H. unfold check.
  pose proof H as ((Hc & Hh & Hx) & Ht).
  unfold mbind, M_bind, read, lift_res, get_core. rewrite <- Hh.
  destruct (heap (env w1) !! r) as [o|]; [|done].
  destruct (attr_or_raise (arg o)) as [p|]; [|done].
  cbn. by rewrite (Hpred _ _ (side o) p Hc).
Qed.

Ltac blind_tac :=
  repeat first
    [ apply blind_ret
    | apply blind_raise
    | apply blind_read
    | apply blind_write
    | apply blind_lift_res
    | (apply blind_invoke; assumption)
    | (apply blind_check; intros; by apply predicates_ignore_last)
    | (apply blind_bind; [|intros ?])
    | match goal with
      | |- blind_to_last (if ?b then _ else _) => destruct b
      end ].

Lemma blind_match_order r initial :
  blind_to_last (match_order trig fillm filll r initial).
Proof.
  unfold match_order.
  apply blind_bind; [apply blind_emit | intros _].
  apply blind_bind; [apply blind_read | intros o].
  destruct (order_type o);
    unfold match_limit_order, match_stop_limit_order,
      match_stop_market_order, match_limit_if_touched_order,
      match_market_if_touched_order, get_trigger_price,
      assign_order_liquidity, set_liquidity_side, set_triggered_price_c;
    blind_tac.
Qed.

End LastPrice.

(** C9: the stored last price does not influence matching.  On two cores
    that differ in [last_raw] and [is_last_initialized] only, the three
    predicates agree for every side and price; and, with callbacks that do
    not look at the last price themselves, [match_order] has the same
    outcome, makes the same calls and leaves the same orders, in worlds that
    again differ in the last price only. *)
Theorem last_price_never_influences_matching {X}
    (trig fillm filll : @Callback X) (w1 w2 : @World X) r initial :
  ignores_last trig -> ignores_last fillm -> ignores_last filll ->
  same_but_last_world w1 w2 ->
  (forall s p,
     is_limit_matched (core (env w1)) s p
       = is_limit_matched (core (env w2)) s p /\
     is_stop_triggered (core (env w1)) s p
       = is_stop_triggered (core (env w2)) s p /\
     is_touch_triggered (core (env w1)) s p
       = is_touch_triggered (core (env w2)) s p) /\
  let run1 := match_order trig fillm filll r initial w1 in
  let run2 := match_order trig fillm filll r initial w2 in
  run1.1 = run2.1 /\
  trace run1.2 = trace run2.2 /\
  heap (env run1.2) = heap (env run2.2) /\
  ext (env run1.2) = ext (env run2.2) /\
  same_but_last (core (env run1.2)) (core (env run2.2)).
Proof.
  intros Ht Hm Hl Hsim. split.
  - intros s p. apply predicates_ignore_last. apply Hsim.
  - destruct (blind_match_order trig fillm filll Ht Hm Hl r initial w1 w2 Hsim)
      as (E & (Hc & Hh & Hx) & Htr).
    done.
Qed.

Lemma cb_trigger_ignores_last : ignores_last Examples.cb_trigger.
Proof.
  intros r e1 e2 (Hc & Hh & Hx). unfold Examples.cb_trigger. cbn.
  split; [done |]. repeat split; cbn; [done | by rewrite Hh | done].
Qed.

Lemma cb_fill_ignores_last : ignores_last Examples.cb_fill.
Proof.
  intros r e1 e2 (Hc & Hh & Hx). unfold Examples.cb_fill. cbn.
  split; [done |]. repeat split; cbn; [done | by rewrite Hh | done].
Qed.

Lemma cb_noop_ignores_last : ignores_last Examples.cb_noop.
Proof. by intros r e1 e2 H. Qed.

Lemma last_price_never_influences_matching_witness :
  same_but_last_world Examples.w_stop_limit Examples.w_stop_limit_last /\
  (match_order Examples.cb_trigger Examples.cb_noop Examples.cb_fill
     1%nat false Examples.w_stop_limit).1
  = (match_order Examples.cb_trigger Examples.cb_noop Examples.cb_fill
       1%nat false Examples.w_stop_limit_last).1.
Proof.
  assert (H : same_but_last_world Examples.w_stop_limit
                                  Examples.w_stop_limit_last)
    by (repeat split; reflexivity).
  split; [exact H |].
  exact (proj1 (proj2 (last_price_never_influences_matching
    Examples.cb_trigger Examples.cb_noop Examples.cb_fill
    Examples.w_stop_limit Examples.w_stop_limit_last 1%nat false
    cb_trigger_ignores_last cb_noop_ignores_last cb_fill_ignores_last H))).
Defined.


(** ** Sortedness of the side lists *)


Lemma sort_key_of_alter (f : Order -> Order) r h x :
  (forall o, order_sort_key (f o) = order_sort_key o) ->
  sort_key_of (alter f r h) x = sort_key_of h x.
Proof.
  intros Hf. unfold sort_key_of. destruct (decide (r = x)) as [->|Hne].
  - rewrite lookup_alter_eq. destruct (h !! x); cbn; [apply Hf | done].
  - by rewrite lookup_alter_ne.
Qed.

Lemma side_sorted_alter (f : Order -> Order) r h rev l :
  (forall o, order_sort_key (f o) = order_sort_key o) ->
  side_sorted rev (alter f r h) l = side_sorted rev h l.
Proof.
  intros Hf. unfold side_sorted.
  rewrite (compute_keys_ext _ (sort_key_of h)); [done |].
  intros x _. by apply sort_key_of_alter.
Qed.

Lemma py_remove_keys h (key : ref -> Res Z) rev x l kl :
  compute_keys key l = Ok kl ->
  StronglySorted (key_rel rev) kl ->
  exists kl',
    compute_keys key (py_remove h x l) = Ok kl' /\
    StronglySorted (key_rel rev) kl' /\
    (forall z, z ∈ kl' -> z ∈ kl).
Proof.
  revert kl. induction l as [|y t IH]; intros kl H Hs; cbn in *.
  - exists kl. injection H as <-. by repeat split.
  - destruct (key y) as [k|] eqn:Hk; [|done].
    destruct (compute_keys key t) as [kt|] eqn:Ht; [|done].
    injection H as <-. apply StronglySorted_cons in Hs as [Hall Hs].
    destruct (order_eq h y x).
    + exists kt. split; [done |]. split; [done |].
      intros z Hz. by right.
    + destruct (IH kt eq_refl Hs) as (kt' & E' & S' & Sub).
      exists ((k, y) :: kt'). cbn. rewrite Hk, E'.
      split; [done |]. split.
      * constructor; [done |]. rewrite Forall_forall in *.
        intros z Hz. by apply Hall, Sub.
      * intros z [->|Hz]%elem_of_cons; [by left | right; by apply Sub].
Qed.

Lemma py_remove_sorted h rev x l :
  side_sorted rev h l = true ->
  side_sorted rev h (if py_in h x l then py_remove h x l else l) = true.
Proof.
  intros H. destruct (py_in h x l); [|done].
  apply side_sorted_iff in H as (kl & E & S).
  destruct (py_remove_keys h _ rev x l kl E S) as (kl' & E' & S' & _).
  apply side_sorted_iff. eauto.
Qed.

Section Sorted.
Context {X : Type}.
Variables trig fillm filll : @Callback X.
Hypothesis trig_keeps : callback_keeps_sorted trig.
Hypothesis fillm_keeps : callback_keeps_sorted fillm.
Hypothesis filll_keeps : callback_keeps_sorted filll.

Lemma keeps_sorted_callback (cb : @Callback X) r (w : @World X) :
  callback_keeps_sorted cb -> keeps_sorted w (run_callback cb r w).2.
Proof.
  intros Hcb H. unfold run_callback.
  specialize (Hcb r (env w) H). by destruct (cb r (env w)).
Qed.

Lemma keeps_sorted_write (f : Order -> Order) r (w : @World X) :
  (forall o, order_sort_key (f o) = order_sort_key o) ->
  keeps_sorted w (write r f w).2.
Proof.
  intros Hf [Hb Ha]. unfold write, lists_sorted. cbn.
  by rewrite !side_sorted_alter.
Qed.

Lemma keeps_sorted_match_order r initial (w : @World X) :
  keeps_sorted w (match_order trig fillm filll r initial w).2.
Proof.
  intros H.
  refine (steps_match_order trig fillm filll keeps_sorted
            _ _ _ _ _ _ _ _ r initial w H).
  - intros w1 H1. exact H1.
  - intros w1 w2 w3 H12 H23 H1. exact (H23 (H12 H1)).
  - intros ev w1 _ H1. exact H1.
  - intros rr l w1. by apply keeps_sorted_write.
  - intros rr p w1. by apply keeps_sorted_write.
  - intros rr w1. by apply keeps_sorted_callback.
  - intros rr w1. by apply keeps_sorted_callback.
  - intros rr w1. by apply keeps_sorted_callback.
Qed.

Lemma keeps_sorted_iterate_loop l (w : @World X) :
  keeps_sorted w (iterate_loop trig fillm filll l w).2.
Proof.
  revert w. induction l as [|r rest IH]; intros w H; [done |].
  rewrite iterate_loop_cons.
  destruct (heap (env w) !! r) as [o|]; [|done].
  destruct (is_closed o); [by apply IH |].
  pose proof (keeps_sorted_match_order r false w H) as Hm.
  destruct (match_order _ _ _ _ _ _) as [[[]|e] w']; [by apply IH | done].
Qed.

Lemma keeps_sorted_delete_order r (w : @World X) :
  keeps_sorted w (delete_order r w).2.
Proof.
  intros [Hb Ha].
  destruct (heap (env w) !! r) as [o|] eqn:Hr.
  2:{ by rewrite (delete_order_dangling w r Hr). }
  destruct (side o) eqn:Hs.
  - rewrite (delete_order_buy w r o Hr Hs). split; cbn; [|done].
    by apply py_remove_sorted.
  - rewrite (delete_order_sell w r o Hr Hs). split; cbn; [done |].
    by apply py_remove_sorted.
  - by rewrite (delete_order_invalid w r o Hr Hs).
Qed.

Lemma add_order_sorted r (w : @World X) :
  (add_order r w).1 = Ok tt ->
  keeps_sorted w (add_order r w).2.
Proof.
  intros Hok [Hb Ha].
  destruct (heap (env w) !! r) as [o|] eqn:Hr.
  2:{ unfold add_order, _add_order in Hok.
      by rewrite (bind_raise _ _ _ _ _ (read_none _ _ Hr)) in Hok. }
  destruct (side o) eqn:Hs.
  - destruct (add_order_buy w r o Hr Hs) as (res & l' & E & _ & S).
    rewrite E in Hok |- *. cbn in Hok. split; cbn; [by apply S | done].
  - destruct (add_order_sell w r o Hr Hs) as (res & l' & E & _ & S).
    rewrite E in Hok |- *. cbn in Hok. split; cbn; [done | by apply S].
  - by rewrite (add_order_invalid w r o Hr Hs) in Hok.
Qed.

End Sorted.


Lemma keeps_sorted_exec {X} (trig fillm filll : @Callback X) cmd
    (w : @World X) :
  callback_keeps_sorted trig ->
  callback_keeps_sorted fillm ->
  callback_keeps_sorted filll ->
  match cmd with
  | CAddOrder r => (add_order r w).1 = Ok tt
  | _ => True
  end ->
  keeps_sorted w (exec trig fillm filll cmd w).2.
Proof.
  intros Ht Hm Hl Hadd. destruct cmd; cbn [exec].
  - by intros [Hb Ha].
  - by intros [Hb Ha].
  - by intros [Hb Ha].
  - by intros _.
  - by apply add_order_sorted.
  - apply keeps_sorted_delete_order.
  - unfold iterate, get_core, mbind, M_bind.
    by apply keeps_sorted_iterate_loop.
  - by apply keeps_sorted_match_order.
Qed.

Lemma fresh_core_sorted {X} (i : Instrument) (h : gmap ref Order) (x : X) :
  lists_sorted (mkEnv (MatchingCore_init i) h x).
Proof. by split. Qed.

(** C1 as claimed fails.  Both orders were added through [add_order], so the
    bid list is sorted: the stop-limit with key 100.00 (its trigger) before
    the limit at 95.00.  [iterate] triggers the stop-limit, the callback
    sets [is_triggered], its key becomes its limit price 90.00, and the list
    is left in the old order. *)
Lemma triggered_order_left_out_of_place :
  lists_sorted (env Examples.w_two) /\
  get_orders_bid (core (env Examples.w_two)) = [1%nat; 2%nat] /\
  let run := iterate Examples.cb_trigger Examples.cb_noop Examples.cb_fill
               0%N Examples.w_two in
  run.1 = Ok tt /\
  get_orders_bid (core (env run.2)) = [1%nat; 2%nat] /\
  compute_keys (sort_key_of (heap (env run.2)))
               (get_orders_bid (core (env run.2)))
    = Ok [(9000, 1%nat); (9500, 2%nat)] /\
  side_sorted true (heap (env run.2)) (get_orders_bid (core (env run.2)))
    = false /\
  ~ lists_sorted (env run.2).
Proof.
  split; [split; vm_compute; reflexivity |].
  split; [vm_compute; reflexivity |].
  cbv zeta.
  assert (H : side_sorted true
    (heap (env (iterate Examples.cb_trigger Examples.cb_noop Examples.cb_fill
                  0%N Examples.w_two).2))
    (get_orders_bid (core (env (iterate Examples.cb_trigger Examples.cb_noop
                  Examples.cb_fill 0%N Examples.w_two).2))) = false)
    by (vm_compute; reflexivity).
  split; [vm_compute; reflexivity |].
  split; [vm_compute; reflexivity |].
  split; [vm_compute; reflexivity |].
  split; [exact H |].
  intros [Hb _]. unfold get_orders_bid in H. rewrite H in Hb. discriminate.
Qed.

(** The run of the example, step by step. *)
Example out_of_place_trace :
  trace (iterate Examples.cb_trigger Examples.cb_noop Examples.cb_fill
           0%N Examples.w_two).2
  = [EvMatch 1%nat false; EvTriggerStop 1%nat; EvMatch 2%nat false].
Proof. vm_compute. reflexivity. Qed.

(** Spec scenario 5 and property P7, run on the model: the fill of the first
    bid closes the second bid and adds a sell order that the market would
    fill.  The second bid is skipped, the new order is on the ask list but
    is not matched before the next sweep. *)
Example sweep_skips_closed_and_ignores_added :
  let run := iterate Examples.cb_noop Examples.cb_noop Examples.cb_fill_reenter
               0%N Examples.w_sweep in
  get_orders (core (env Examples.w_sweep)) = [1%nat; 2%nat] /\
  run.1 = Ok tt /\
  trace run.2 = [EvMatch 1%nat false; EvFillLimit 1%nat] /\
  get_orders (core (env run.2)) = [1%nat; 2%nat; 3%nat] /\
  trace (iterate Examples.cb_noop Examples.cb_noop Examples.cb_fill
           0%N run.2).2
  = [EvMatch 1%nat false; EvFillLimit 1%nat;
     EvMatch 3%nat false; EvFillLimit 3%nat].
Proof. vm_compute. repeat split. Qed.


(** * Further properties of the code *)

(** ** Price slots *)

(** X1: each of [bid], [ask], [last] is [None] on a fresh core and after
    [reset]; after the matching setter it is the stored raw value at the
    instrument's precision (zero included), and the other two slots are as
    before. *)
Theorem price_slots_round_trip (c : MatchingCore) (v : Z) :
  let pr := price_precision (_instrument c) in
  (bid (set_bid_raw v c) = Some (mkPrice v pr) /\
   ask (set_bid_raw v c) = ask c /\ last (set_bid_raw v c) = last c) /\
  (ask (set_ask_raw v c) = Some (mkPrice v pr) /\
   bid (set_ask_raw v c) = bid c /\ last (set_ask_raw v c) = last c) /\
  (last (set_last_raw v c) = Some (mkPrice v pr) /\
   bid (set_last_raw v c) = bid c /\ ask (set_last_raw v c) = ask c) /\
  (bid (reset (set_bid_raw v c)) = None /\
   ask (reset (set_ask_raw v c)) = None /\
   last (reset (set_last_raw v c)) = None) /\
  (forall i, bid (MatchingCore_init i) = None /\
             ask (MatchingCore_init i) = None /\
             last (MatchingCore_init i) = None).
Proof. by repeat split. Qed.

(** ** The three predicates *)

(** X2: the predicates raise [ValueError] on a side that is neither BUY nor
    SELL, whatever the market, and return a boolean on BUY and SELL. *)
Theorem predicates_raise_on_invalid_side_only (c : MatchingCore) (p : Price) :
  (is_limit_matched c INVALID_SIDE p = Raise ValueError /\
   is_stop_triggered c INVALID_SIDE p = Raise ValueError /\
   is_touch_triggered c INVALID_SIDE p = Raise ValueError) /\
  (forall s, s <> INVALID_SIDE ->
     exists b1 b2 b3,
       is_limit_matched c s p = Ok b1 /\
       is_stop_triggered c s p = Ok b2 /\
       is_touch_triggered c s p = Ok b3).
Proof.
  split; [done |]. intros s Hs.
  unfold is_limit_matched, is_stop_triggered, is_touch_triggered.
  destruct s; [| |done].
  - destruct (is_ask_initialized c); cbn; by repeat eexists.
  - destruct (is_bid_initialized c); cbn; by repeat eexists.
Qed.

(** X3: [is_touch_triggered] is the same function as [is_limit_matched], and
    [is_stop_triggered] is [is_touch_triggered] with bid and ask exchanged
    and the side reversed. *)
Theorem touch_is_limit_and_mirrors_stop (c : MatchingCore) (s : OrderSide)
    (p : Price) :
  is_touch_triggered c s p = is_limit_matched c s p /\
  is_stop_triggered c s p
    = is_touch_triggered (swap_bid_ask c) (opposite s) p /\
  is_touch_triggered c s p = is_stop_triggered (swap_bid_ask c) (opposite s) p.
Proof.
  split; [done |].
  unfold is_stop_triggered, is_touch_triggered.
  destruct s; cbn; [| |done].
  - destruct (is_ask_initialized c); cbn; [|done].
    split; f_equal; rewrite Z.geb_leb; done.
  - destruct (is_bid_initialized c); cbn; [|done].
    split; f_equal; rewrite Z.geb_leb; done.
Qed.

(** X4: once the side of the market an order looks at is published, the
    order is stop-triggered or touch-triggered (or both), and both exactly
    when the market is at the trigger price. *)
Theorem stop_or_touch_with_market (c : MatchingCore) (s : OrderSide)
    (t : Price) :
  (s = BUY /\ is_ask_initialized c = true) \/
  (s = SELL /\ is_bid_initialized c = true) ->
  let m := if bool_decide (s = BUY) then ask_raw c else bid_raw c in
  (is_stop_triggered c s t = Ok true \/ is_touch_triggered c s t = Ok true) /\
  (is_stop_triggered c s t = Ok true /\ is_touch_triggered c s t = Ok true
   <-> m = raw t).
Proof.
  unfold is_stop_triggered, is_touch_triggered.
  intros [[-> Hi]|[-> Hi]]; rewrite Hi; cbn [negb bool_decide decide_rel];
    rewrite ?bool_decide_eq_true_2, ?bool_decide_eq_false_2 by done.
  - destruct (Z.geb_spec (ask_raw c) (raw t)),
             (Z.leb_spec (ask_raw c) (raw t));
      try (exfalso; lia);
      (split;
       [ first [by left | by right]
       | split; [ first [lia | by intros [? ?]] | first [done | lia] ] ]).
  - destruct (Z.geb_spec (bid_raw c) (raw t)),
             (Z.leb_spec (bid_raw c) (raw t));
      try (exfalso; lia);
      (split;
       [ first [by left | by right]
       | split; [ first [lia | by intros [? ?]] | first [done | lia] ] ]).
Qed.

Lemma stop_or_touch_with_market_witness :
  ((BUY = BUY /\
    is_ask_initialized (core (env Examples.w_stop_limit)) = true) \/
   (BUY = SELL /\
    is_bid_initialized (core (env Examples.w_stop_limit)) = true)) /\
  (is_stop_triggered (core (env Examples.w_stop_limit)) BUY
                     (Examples.px 10100) = Ok true /\
   is_touch_triggered (core (env Examples.w_stop_limit)) BUY
                      (Examples.px 10100) = Ok true
   <-> ask_raw (core (env Examples.w_stop_limit))
       = raw (Examples.px 10100)).
Proof.
  split; [left; split; reflexivity |].
  exact (proj2 (stop_or_touch_with_market
                  (core (env Examples.w_stop_limit)) BUY (Examples.px 10100)
                  (or_introl (conj eq_refl eq_refl)))).
Defined.


(** ** Adding and deleting, in full *)

(** [add_order] on a BUY or SELL order, with the outcome of the sort. *)
Lemma add_order_buy_exact {X} (w : @World X) r o :
  heap (env w) !! r = Some o -> side o = BUY ->
  add_order r w =
  let c1 := with_orders (insert (client_order_id o) r) (core (env w)) in
  let l1 := _orders_bid (core (env w)) ++ [r] in
  match py_sort (sort_key_of (heap (env w))) true l1 with
  | Ok l' =>
      (Ok tt, {| env := {| core := with_orders_bid (fun _ => l') c1;
                           heap := heap (env w); ext := ext (env w) |};
                 trace := trace w |})
  | Raise e =>
      (Raise e, {| env := {| core := with_orders_bid (fun _ => l1) c1;
                             heap := heap (env w); ext := ext (env w) |};
                   trace := trace w |})
  end.
Proof.
  intros Hr Hs. unfold add_order, _add_order.
  rewrite (bind_ok _ _ _ _ _ (read_some _ _ _ Hr)).
  unfold mbind at 1, M_bind at 1, modify_core at 1.
  erewrite bind_ok by (apply read_some; exact Hr).
  rewrite Hs.
  unfold _sort_bid_orders, mbind, M_bind, modify_core, get_core, get_heap,
    lift_res. cbn.
  by destruct (py_sort _ _ _).
Qed.

Lemma add_order_sell_exact {X} (w : @World X) r o :
  heap (env w) !! r = Some o -> side o = SELL ->
  add_order r w =
  let c1 := with_orders (insert (client_order_id o) r) (core (env w)) in
  let l1 := _orders_ask (core (env w)) ++ [r] in
  match py_sort (sort_key_of (heap (env w))) false l1 with
  | Ok l' =>
      (Ok tt, {| env := {| core := with_orders_ask (fun _ => l') c1;
                           heap := heap (env w); ext := ext (env w) |};
                 trace := trace w |})
  | Raise e =>
      (Raise e, {| env := {| core := with_orders_ask (fun _ => l1) c1;
                             heap := heap (env w); ext := ext (env w) |};
                   trace := trace w |})
  end.
Proof.
  intros Hr Hs. unfold add_order, _add_order.
  rewrite (bind_ok _ _ _ _ _ (read_some _ _ _ Hr)).
  unfold mbind at 1, M_bind at 1, modify_core at 1.
  erewrite bind_ok by (apply read_some; exact Hr).
  rewrite Hs.
  unfold _sort_ask_orders, mbind, M_bind, modify_core, get_core, get_heap,
    lift_res. cbn.
  by destruct (py_sort _ _ _).
Qed.

Lemma add_order_dangling {X} (w : @World X) r :
  heap (env w) !! r = None ->
  add_order r w = (Raise ReferenceError, w).
Proof.
  intros Hr. unfold add_order, _add_order.
  by rewrite (bind_raise _ _ _ _ _ (read_none _ _ Hr)).
Qed.

(** Neither operation touches the orders, the caller's state or the
    trace. *)
Lemma add_order_frame {X} (w : @World X) r :
  heap (env (add_order r w).2) = heap (env w) /\
  ext (env (add_order r w).2) = ext (env w) /\
  trace (add_order r w).2 = trace w.
Proof.
  destruct (heap (env w) !! r) as [o|] eqn:Hr.
  2:{ by rewrite (add_order_dangling w r Hr). }
  destruct (side o) eqn:Hs.
  - rewrite (add_order_buy_exact w r o Hr Hs). cbv zeta.
    by destruct (py_sort _ _ _).
  - rewrite (add_order_sell_exact w r o Hr Hs). cbv zeta.
    by destruct (py_sort _ _ _).
  - by rewrite (add_order_invalid w r o Hr Hs).
Qed.

Lemma add_order_index {X} (w : @World X) r o :
  heap (env w) !! r = Some o ->
  _orders (core (env (add_order r w).2))
  = <[client_order_id o := r]> (_orders (core (env w))).
Proof.
  intros Hr. destruct (side o) eqn:Hs.
  - rewrite (add_order_buy_exact w r o Hr Hs). cbv zeta.
    by destruct (py_sort _ _ _).
  - rewrite (add_order_sell_exact w r o Hr Hs). cbv zeta.
    by destruct (py_sort _ _ _).
  - by rewrite (add_order_invalid w r o Hr Hs).
Qed.

Lemma delete_order_index {X} (w : @World X) r o :
  heap (env w) !! r = Some o ->
  _orders (core (env (delete_order r w).2))
  = delete (client_order_id o) (_orders (core (env w))).
Proof.
  intros Hr. destruct (side o) eqn:Hs.
  - by rewrite (delete_order_buy w r o Hr Hs).
  - by rewrite (delete_order_sell w r o Hr Hs).
  - by rewrite (delete_order_invalid w r o Hr Hs).
Qed.

(** X5: whatever its outcome and whatever the order's side, [add_order]
    leaves the order reachable through [get_order] and [order_exists] under
    its client order id, and [delete_order] leaves no entry under that id;
    the entries of all other ids are as before. *)
Theorem index_follows_add_and_delete {X} (w : @World X) r o :
  heap (env w) !! r = Some o ->
  let cid := client_order_id o in
  let added := core (env (add_order r w).2) in
  let deleted := core (env (delete_order r w).2) in
  get_order added cid = Some r /\
  order_exists added cid = true /\
  get_order deleted cid = None /\
  order_exists deleted cid = false /\
  (forall cid', cid' <> cid ->
     get_order added cid' = get_order (core (env w)) cid' /\
     get_order deleted cid' = get_order (core (env w)) cid' /\
     order_exists added cid' = order_exists (core (env w)) cid' /\
     order_exists deleted cid' = order_exists (core (env w)) cid').
Proof.
  intros Hr cid added deleted.
  unfold get_order, order_exists. subst added deleted.
  rewrite (add_order_index w r o Hr), (delete_order_index w r o Hr).
  fold cid. rewrite lookup_insert_eq, lookup_delete_eq.
  split; [done |]. split; [by apply bool_decide_eq_true_2 |].
  split; [done |].
  split; [apply bool_decide_eq_false_2; by intros [? ?] |].
  intros cid' Hne.
  by rewrite lookup_insert_ne, lookup_delete_ne.
Qed.

Lemma index_follows_add_and_delete_witness :
  heap (env Examples.w_one) !! 1%nat = Some Examples.limit_buy /\
  get_order (core (env (add_order 1%nat Examples.w_one).2)) "O-1"
    = Some 1%nat.
Proof.
  split; [reflexivity |].
  exact (proj1 (index_follows_add_and_delete
                  Examples.w_one 1%nat Examples.limit_buy eq_refl)).
Defined.

Lemma compute_keys_app {A} (key : A -> Res Z) (l1 l2 : list A) :
  compute_keys key (l1 ++ l2) =
  match compute_keys key l1 with
  | Raise e => Raise e
  | Ok k1 =>
      match compute_keys key l2 with
      | Raise e => Raise e
      | Ok k2 => Ok (k1 ++ k2)
      end
  end.
Proof.
  induction l1 as [|x t IH]; cbn.
  - by destruct (compute_keys key l2).
  - destruct (key x); [|done]. rewrite IH.
    destruct (compute_keys key t); [|done].
    by destruct (compute_keys key l2).
Qed.

Lemma py_sort_outcome {A} (key : A -> Res Z) rev (l : list A) e :
  py_sort key rev l = Raise e <-> compute_keys key l = Raise e.
Proof.
  unfold py_sort. destruct (compute_keys key l); [done |].
  split; by intros [= ->].
Qed.

(** X6: [add_order] on a BUY or SELL order raises exactly when the sort key
    of some order on the list, the new one included, cannot be computed.  It
    then has still indexed the order and appended it to the list, which is
    otherwise as before; an order of type MARKET always ends up so; and an
    [add_order] of an order of that side made in the state the failed call
    left raises the same error. *)
Theorem add_order_failure_leaves_order_listed {X} (w : @World X) r o e :
  heap (env w) !! r = Some o ->
  side o = BUY \/ side o = SELL ->
  let h := heap (env w) in
  let l := side_list (core (env w)) (side o) in
  let w' := (add_order r w).2 in
  ((add_order r w).1 = Raise e <->
   compute_keys (sort_key_of h) (l ++ [r]) = Raise e) /\
  ((add_order r w).1 = Raise e ->
   side_list (core (env w')) (side o) = l ++ [r] /\
   get_order (core (env w')) (client_order_id o) = Some r /\
   (forall r' o', heap (env w) !! r' = Some o' -> side o' = side o ->
      (add_order r' w').1 = Raise e)) /\
  (order_type o = MARKET -> exists e', (add_order r w).1 = Raise e').
Proof.
  intros Hr Hs h l w'.
  assert (Hcase :
    (add_order r w).1 =
      match py_sort (sort_key_of h) (bool_decide (side o = BUY)) (l ++ [r])
      with Ok _ => Ok tt | Raise e => Raise e end /\
    (forall e, py_sort (sort_key_of h) (bool_decide (side o = BUY)) (l ++ [r])
               = Raise e ->
       side_list (core (env w')) (side o) = l ++ [r])).
  { subst h l w'. destruct Hs as [Hs|Hs].
    - rewrite (add_order_buy_exact w r o Hr Hs), Hs. cbv zeta.
      cbn [side_list bool_decide decide_rel].
      rewrite bool_decide_eq_true_2 by done.
      destruct (py_sort _ _ _); [done |]. split; [done |].
      by intros e' _.
    - rewrite (add_order_sell_exact w r o Hr Hs), Hs. cbv zeta.
      cbn [side_list].
      rewrite bool_decide_eq_false_2 by done.
      destruct (py_sort _ _ _); [done |]. split; [done |].
      by intros e' _. }
  destruct Hcase as [Hres Hlist].
  assert (Hiff : (add_order r w).1 = Raise e <->
                 compute_keys (sort_key_of h) (l ++ [r]) = Raise e).
  { rewrite Hres, <- (py_sort_outcome _ (bool_decide (side o = BUY))).
    destruct (py_sort _ _ _); [by split | split; by intros [= ->]]. }
  split; [exact Hiff |]. split.
  - intros Hraise. apply Hiff in Hraise as Hkeys.
    assert (Hl : side_list (core (env w')) (side o) = l ++ [r]).
    { apply (Hlist e). by apply py_sort_outcome. }
    split; [exact Hl |]. split.
    + unfold get_order. subst w'. rewrite (add_order_index w r o Hr).
      apply lookup_insert_eq.
    + intros r' o' Hr' Hs'.
      destruct (add_order_frame w r) as (Hh & _ & _). fold w' in Hh.
      assert (Hr'' : heap (env w') !! r' = Some o') by (by rewrite Hh).
      assert (Hk' : compute_keys (sort_key_of (heap (env w')))
                      (side_list (core (env w')) (side o') ++ [r'])
                    = Raise e).
      { rewrite Hh, Hs', Hl, compute_keys_app. fold h. by rewrite Hkeys. }
      rewrite <- (py_sort_outcome _ (bool_decide (side o' = BUY))) in Hk'.
      rewrite <- Hs' in Hs.
      destruct Hs as [Hb|Hb].
      * rewrite (add_order_buy_exact w' r' o' Hr'' Hb). cbv zeta.
        rewrite Hb in Hk'. cbn [side_list] in Hk'.
        rewrite bool_decide_eq_true_2 in Hk' by done. by rewrite Hk'.
      * rewrite (add_order_sell_exact w' r' o' Hr'' Hb). cbv zeta.
        rewrite Hb in Hk'. cbn [side_list] in Hk'.
        rewrite bool_decide_eq_false_2 in Hk' by done. by rewrite Hk'.
  - intros Hty.
    assert (Hkr : sort_key_of h r = Raise RuntimeError).
    { unfold sort_key_of. subst h. rewrite Hr.
      unfold order_sort_key. by rewrite Hty. }
    rewrite Hres.
    destruct (py_sort _ _ _) as [l'|e'] eqn:E; [|by eauto].
    unfold py_sort in E. rewrite compute_keys_app in E. cbn in E.
    rewrite Hkr in E. by destruct (compute_keys (sort_key_of h) l).
Qed.

Lemma add_order_failure_leaves_order_listed_witness :
  heap (env MoreExamples.w_market) !! 1%nat = Some MoreExamples.market_buy /\
  (side MoreExamples.market_buy = BUY \/
   side MoreExamples.market_buy = SELL) /\
  ((add_order 1%nat MoreExamples.w_market).1 = Raise RuntimeError <->
   compute_keys (sort_key_of (heap (env MoreExamples.w_market)))
     (side_list (core (env MoreExamples.w_market)) BUY ++ [1%nat])
   = Raise RuntimeError).
Proof.
  split; [reflexivity | split; [left; reflexivity |]].
  exact (proj1 (add_order_failure_leaves_order_listed
                  MoreExamples.w_market 1%nat MoreExamples.market_buy
                  RuntimeError eq_refl (or_introl eq_refl))).
Defined.

(** A MARKET order is listed although its [add_order] raised, and the
    order added right after it cannot be ranked either. *)
Example market_order_poisons_bid_list :
  let w1 := (add_order 1%nat MoreExamples.w_market).2 in
  (add_order 1%nat MoreExamples.w_market).1 = Raise RuntimeError /\
  get_orders_bid (core (env w1)) = [1%nat] /\
  (add_order 2%nat w1).1 = Raise RuntimeError /\
  get_orders_bid (core (env (add_order 2%nat w1).2)) = [1%nat; 2%nat].
Proof. vm_compute. repeat split. Qed.


(** ** Where a new order goes *)

Section InsertPosition.
Context {A : Type}.
Implicit Types (kx kr : Z * A) (kl : list (Z * A)).

Lemma insert_by_key_head kx kl :
  Forall (fun ky => kx.1 <= ky.1) kl -> insert_by_key kx kl = kx :: kl.
Proof.
  destruct 1 as [|ky t Hy _]; [done |]. cbn.
  by rewrite (proj2 (Z.leb_le _ _) Hy).
Qed.

Lemma stable_sort_id kl :
  StronglySorted (key_rel false) kl -> stable_sort kl = kl.
Proof.
  induction 1 as [|kx t Hs IH Hall]; [done |]. cbn. rewrite IH.
  by apply insert_by_key_head.
Qed.

Lemma insert_by_key_split kx kl :
  StronglySorted (key_rel false) kl ->
  exists a b,
    kl = a ++ b /\ insert_by_key kx kl = a ++ kx :: b /\
    Forall (fun ky => ky.1 < kx.1) a /\
    Forall (fun ky => kx.1 <= ky.1) b.
Proof.
  induction 1 as [|ky t Hs IH Hall]; cbn.
  - exists [], []. by repeat split.
  - destruct (Z.leb_spec kx.1 ky.1) as [Hle|Hlt].
    + exists [], (ky :: t). repeat split; [done |].
      constructor; [done |].
      eapply Forall_impl; [exact Hall |]. unfold key_rel. cbn. lia.
    + destruct IH as (a & b & -> & -> & Ha & Hb).
      exists (ky :: a), b. repeat split; [|done]. by constructor.
Qed.

Lemma sort_snoc_ascending kl kr :
  StronglySorted (key_rel false) kl ->
  exists a b,
    kl = a ++ b /\ stable_sort (kl ++ [kr]) = a ++ kr :: b /\
    Forall (fun ky => ky.1 <= kr.1) a /\
    Forall (fun ky => kr.1 < ky.1) b.
Proof.
  induction 1 as [|kx t Hs IH Hall]; cbn.
  - exists [], []. by repeat split.
  - destruct IH as (a & b & Et & -> & Ha & Hb).
    destruct a as [|ky a]; cbn.
    + cbn in Et. subst b.
      destruct (Z.leb_spec kx.1 kr.1) as [Hle|Hlt].
      * exists [kx], t. repeat split; [|done]. by constructor.
      * rewrite insert_by_key_head by done.
        exists [], (kx :: t). repeat split; [done |].
        constructor; [done |].
        eapply Forall_impl; [exact Hall |]. unfold key_rel. cbn. lia.
    + assert (Hky : kx.1 <= ky.1).
      { rewrite Forall_forall in Hall. apply Hall. rewrite Et. by left. }
      rewrite (proj2 (Z.leb_le _ _) Hky).
      exists (kx :: ky :: a), b. rewrite Et. repeat split; [|done].
      constructor; [|done]. apply Forall_cons in Ha as [Hk _]. lia.
Qed.

Lemma reverse_sorted_back kl :
  StronglySorted (key_rel true) kl ->
  StronglySorted (key_rel false) (reverse kl).
Proof.
  induction 1 as [|kx t Hs IH Hall]; [constructor |].
  rewrite reverse_cons. apply StronglySorted_app_2; [|done|repeat constructor].
  intros a b Ha Hb. rewrite elem_of_reverse in Ha.
  apply list_elem_of_singleton in Hb as ->.
  rewrite Forall_forall in Hall. exact (Hall a Ha).
Qed.

(** Sorting a sorted list with one more item at its end. *)
Lemma sort_snoc (rev : bool) kl kr :
  StronglySorted (key_rel rev) kl ->
  exists a b,
    kl = a ++ b /\
    (if rev then reverse (stable_sort (reverse (kl ++ [kr])))
     else stable_sort (kl ++ [kr])) = a ++ kr :: b /\
    Forall (fun ky => if rev then kr.1 <= ky.1 else ky.1 <= kr.1) a /\
    Forall (fun ky => if rev then ky.1 < kr.1 else kr.1 < ky.1) b.
Proof.
  intros Hs. destruct rev; [|by apply sort_snoc_ascending].
  apply reverse_sorted_back in Hs as Hr.
  rewrite reverse_snoc. cbn [stable_sort]. rewrite (stable_sort_id _ Hr).
  destruct (insert_by_key_split kr _ Hr) as (a & b & E & -> & Ha & Hb).
  exists (reverse b), (reverse a). split.
  { by rewrite <- reverse_app, <- E, reverse_involutive. }
  split.
  { by rewrite reverse_app, reverse_cons, <- app_assoc. }
  by rewrite !Forall_reverse.
Qed.

End InsertPosition.

Lemma py_sort_snoc_position (h : gmap ref Order) (rev : bool)
    (l l' : list ref) (r : ref) :
  side_sorted rev h l = true ->
  py_sort (sort_key_of h) rev (l ++ [r]) = Ok l' ->
  exists k la lb,
    sort_key_of h r = Ok k /\ l = la ++ lb /\ l' = la ++ r :: lb /\
    Forall (ranks_ahead rev h k) la /\ Forall (ranks_behind rev h k) lb.
Proof.
  intros (kl & Ekl & Hs)%side_sorted_iff. unfold py_sort.
  rewrite compute_keys_app, Ekl. cbn.
  destruct (sort_key_of h r) as [k|] eqn:Ek; [|done]. intros [= <-].
  apply compute_keys_inv in Ekl as [El Hkeyed].
  destruct (sort_snoc rev kl (k, r) Hs) as (a & b & -> & -> & Ha & Hb).
  exists k, (a.*2), (b.*2). split; [done |].
  split; [by rewrite <- El, fmap_app |].
  split; [by rewrite fmap_app |].
  apply Forall_app in Hkeyed as [Ka Kb].
  split; apply Forall_fmap, Forall_forall; intros [kx x] Hin.
  - rewrite Forall_forall in Ka, Ha.
    exists kx. split; [exact (Ka _ Hin) | exact (Ha _ Hin)].
  - rewrite Forall_forall in Kb, Hb.
    exists kx. split; [exact (Kb _ Hin) | exact (Hb _ Hin)].
Qed.

(** [add_order] returning normally on a sorted side list. *)
Lemma add_order_inserts {X} (w : @World X) r o :
  heap (env w) !! r = Some o ->
  side o = BUY \/ side o = SELL ->
  let rev := bool_decide (side o = BUY) in
  let h := heap (env w) in
  let c := core (env w) in
  side_sorted rev h (side_list c (side o)) = true ->
  (add_order r w).1 = Ok tt ->
  exists k la lb,
    sort_key_of h r = Ok k /\
    side_list c (side o) = la ++ lb /\
    Forall (ranks_ahead rev h k) la /\
    Forall (ranks_behind rev h k) lb /\
    add_order r w =
      (Ok tt,
       {| env :=
            {| core :=
                 (if rev then with_orders_bid else with_orders_ask)
                   (fun _ => la ++ r :: lb)
                   (with_orders (insert (client_order_id o) r) c);
               heap := h; ext := ext (env w) |};
          trace := trace w |}).
Proof.
  intros Hr Hs rev h c Hsorted Hok. subst rev h c.
  destruct Hs as [Hs|Hs]; rewrite Hs in *; cbn [side_list] in *.
  - rewrite bool_decide_eq_true_2 in * by done.
    rewrite (add_order_buy_exact w r o Hr Hs) in Hok |- *. cbv zeta in *.
    destruct (py_sort _ _ _) as [l'|] eqn:E; [|done].
    destruct (py_sort_snoc_position _ _ _ _ _ Hsorted E)
      as (k & la & lb & Hk & El & -> & Ha & Hb).
    exists k, la, lb. by repeat split.
  - rewrite bool_decide_eq_false_2 in * by done.
    rewrite (add_order_sell_exact w r o Hr Hs) in Hok |- *. cbv zeta in *.
    destruct (py_sort _ _ _) as [l'|] eqn:E; [|done].
    destruct (py_sort_snoc_position _ _ _ _ _ Hsorted E)
      as (k & la & lb & Hk & El & -> & Ha & Hb).
    exists k, la, lb. by repeat split.
Qed.

(** X7: on a sorted side list an [add_order] that returns normally inserts
    the order and moves nothing else: the orders that were listed keep their
    relative order, those before the new order have keys at least as good
    as its key (so the new order goes behind resting orders with the same
    key), those after it strictly worse keys; the other side list is
    untouched. *)
Theorem add_order_goes_behind_equal_keys {X} (w : @World X) r o :
  heap (env w) !! r = Some o ->
  side o = BUY \/ side o = SELL ->
  let rev := bool_decide (side o = BUY) in
  let h := heap (env w) in
  let c := core (env w) in
  let c' := core (env (add_order r w).2) in
  side_sorted rev h (side_list c (side o)) = true ->
  (add_order r w).1 = Ok tt ->
  exists k la lb,
    sort_key_of h r = Ok k /\
    side_list c (side o) = la ++ lb /\
    side_list c' (side o) = la ++ r :: lb /\
    Forall (ranks_ahead rev h k) la /\
    Forall (ranks_behind rev h k) lb /\
    side_list c' (opposite (side o)) = side_list c (opposite (side o)).
Proof.
  intros Hr Hs rev h c c' Hsorted Hok.
  destruct (add_order_inserts w r o Hr Hs Hsorted Hok)
    as (k & la & lb & Hk & El & Ha & Hb & E).
  exists k, la, lb. subst c'. rewrite E.
  repeat split; try done.
  - destruct Hs as [Hs|Hs]; rewrite Hs; cbn [side_list];
      [rewrite bool_decide_eq_true_2 by done
      |rewrite bool_decide_eq_false_2 by done]; done.
  - destruct Hs as [Hs|Hs]; rewrite Hs; cbn [side_list opposite];
      [rewrite bool_decide_eq_true_2 by done
      |rewrite bool_decide_eq_false_2 by done]; done.
Qed.

Lemma add_order_goes_behind_equal_keys_witness :
  heap (env MoreExamples.w_book) !! 2%nat = Some MoreExamples.same_price_bid /\
  side_sorted true (heap (env MoreExamples.w_book))
              (side_list (core (env MoreExamples.w_book)) BUY) = true /\
  (add_order 2%nat MoreExamples.w_book).1 = Ok tt /\
  exists k la lb,
    sort_key_of (heap (env MoreExamples.w_book)) 2%nat = Ok k /\
    side_list (core (env MoreExamples.w_book)) BUY = la ++ lb /\
    side_list (core (env (add_order 2%nat MoreExamples.w_book).2)) BUY
      = la ++ 2%nat :: lb /\
    Forall (ranks_ahead true (heap (env MoreExamples.w_book)) k) la /\
    Forall (ranks_behind true (heap (env MoreExamples.w_book)) k) lb /\
    side_list (core (env (add_order 2%nat MoreExamples.w_book).2)) SELL
      = side_list (core (env MoreExamples.w_book)) SELL.
Proof.
  split; [reflexivity |]. split; [reflexivity |]. split; [reflexivity |].
  exact (add_order_goes_behind_equal_keys
           MoreExamples.w_book 2%nat MoreExamples.same_price_bid
           eq_refl (or_introl eq_refl) eq_refl eq_refl).
Defined.

(** A bid at the price of a resting bid goes behind it, ahead of the worse
    one. *)
Example same_price_bid_goes_behind :
  get_orders_bid (core (env MoreExamples.w_book)) = [1%nat; 3%nat] /\
  get_orders_bid (core (env (add_order 2%nat MoreExamples.w_book).2))
    = [1%nat; 2%nat; 3%nat].
Proof. vm_compute. by split. Qed.

Lemma py_in_app h x (l1 l2 : list ref) :
  py_in h x (l1 ++ l2) = py_in h x l1 || py_in h x l2.
Proof. unfold py_in. apply existsb_app. Qed.

Lemma py_remove_middle h r (la lb : list ref) :
  py_in h r la = false -> py_remove h r (la ++ r :: lb) = la ++ lb.
Proof.
  unfold py_in. induction la as [|y t IH]; cbn.
  - by rewrite order_eq_refl.
  - intros [Hy Ht]%orb_false_iff. rewrite Hy. by rewrite IH.
Qed.

(** X8: on a sorted side list, adding an order that is neither indexed nor
    listed and deleting it again gives back the world as it was. *)
Theorem add_then_delete_restores {X} (w : @World X) r o :
  heap (env w) !! r = Some o ->
  side o = BUY \/ side o = SELL ->
  side_sorted (bool_decide (side o = BUY)) (heap (env w))
              (side_list (core (env w)) (side o)) = true ->
  _orders (core (env w)) !! client_order_id o = None ->
  py_in (heap (env w)) r (side_list (core (env w)) (side o)) = false ->
  (add_order r w).1 = Ok tt ->
  delete_order r (add_order r w).2 = (Ok tt, w).
Proof.
  intros Hr Hs Hsorted Hidx Hin Hok.
  destruct (add_order_inserts w r o Hr Hs Hsorted Hok)
    as (k & la & lb & Hk & El & Ha & Hb & E).
  rewrite E. cbn [snd]. rewrite El, py_in_app in Hin.
  apply orb_false_iff in Hin as [Hla _].
  assert (Hpin : py_in (heap (env w)) r (la ++ r :: lb) = true).
  { apply py_in_elem, elem_of_app. right. by left. }
  destruct w as [[c h x] t]. cbn in *.
  destruct Hs as [Hs|Hs]; rewrite Hs in *; cbn [side_list] in *.
  - rewrite bool_decide_eq_true_2 by done.
    erewrite delete_order_buy; [|exact Hr|exact Hs].
    unfold with_orders_bid, with_orders. cbn.
    fold (py_in h r (la ++ r :: lb)). rewrite Hpin.
    rewrite (py_remove_middle _ _ _ _ Hla), <- El.
    rewrite (delete_insert_id _ _ _ Hidx). by destruct c.
  - rewrite bool_decide_eq_false_2 by done.
    erewrite delete_order_sell; [|exact Hr|exact Hs].
    unfold with_orders_ask, with_orders. cbn.
    fold (py_in h r (la ++ r :: lb)). rewrite Hpin.
    rewrite (py_remove_middle _ _ _ _ Hla), <- El.
    rewrite (delete_insert_id _ _ _ Hidx). by destruct c.
Qed.

Lemma add_then_delete_restores_witness :
  heap (env MoreExamples.w_book) !! 2%nat = Some MoreExamples.same_price_bid /\
  side_sorted true (heap (env MoreExamples.w_book))
              (side_list (core (env MoreExamples.w_book)) BUY) = true /\
  _orders (core (env MoreExamples.w_book)) !! "O-2b" = None /\
  py_in (heap (env MoreExamples.w_book)) 2%nat
        (side_list (core (env MoreExamples.w_book)) BUY) = false /\
  (add_order 2%nat MoreExamples.w_book).1 = Ok tt /\
  delete_order 2%nat (add_order 2%nat MoreExamples.w_book).2
    = (Ok tt, MoreExamples.w_book).
Proof.
  do 5 (split; [reflexivity |]).
  exact (add_then_delete_restores
           MoreExamples.w_book 2%nat MoreExamples.same_price_bid
           eq_refl (or_introl eq_refl) eq_refl eq_refl eq_refl eq_refl).
Defined.


(** ** Sides of the lists *)

Lemma elem_of_py_remove h r x (l : list ref) :
  x ∈ py_remove h r l -> x ∈ l.
Proof.
  induction l as [|y t IH]; cbn; [done |].
  destruct (order_eq h y r); [by right |].
  intros [->|Hx]%elem_of_cons; [by left | right; by apply IH].
Qed.

(** X9: if every order on the bid list is a BUY order and every order on
    the ask list a SELL order, this is still so after [add_order] and after
    [delete_order], whatever their outcome. *)
Theorem add_and_delete_keep_sides {X} (w : @World X) r :
  sides_partitioned (env w) ->
  sides_partitioned (env (add_order r w).2) /\
  sides_partitioned (env (delete_order r w).2).
Proof.
  intros [Hb Ha]. split.
  - destruct (heap (env w) !! r) as [o|] eqn:Hr.
    2:{ by rewrite (add_order_dangling w r Hr). }
    destruct (side o) eqn:Hs.
    + destruct (add_order_buy w r o Hr Hs) as (res & l' & E & P & _).
      rewrite E. split; cbn; [|done].
      intros x Hx. rewrite P in Hx.
      apply elem_of_app in Hx as [Hx|Hx%list_elem_of_singleton];
        [by apply Hb |].
      subst x. by rewrite Hr, <- Hs.
    + destruct (add_order_sell w r o Hr Hs) as (res & l' & E & P & _).
      rewrite E. split; cbn; [done |].
      intros x Hx. rewrite P in Hx.
      apply elem_of_app in Hx as [Hx|Hx%list_elem_of_singleton];
        [by apply Ha |].
      subst x. by rewrite Hr, <- Hs.
    + by rewrite (add_order_invalid w r o Hr Hs).
  - destruct (heap (env w) !! r) as [o|] eqn:Hr.
    2:{ by rewrite (delete_order_dangling w r Hr). }
    destruct (side o) eqn:Hs.
    + rewrite (delete_order_buy w r o Hr Hs).
      unfold with_orders_bid, with_orders. split; proj_simpl; [|done].
      intros x Hx. apply Hb.
      destruct (py_in _ _ _); [by eapply elem_of_py_remove | done].
    + rewrite (delete_order_sell w r o Hr Hs).
      unfold with_orders_ask, with_orders. split; proj_simpl; [done |].
      intros x Hx. apply Ha.
      destruct (py_in _ _ _); [by eapply elem_of_py_remove | done].
    + by rewrite (delete_order_invalid w r o Hr Hs).
Qed.

Lemma add_and_delete_keep_sides_witness :
  sides_partitioned (env MoreExamples.w_book) /\
  sides_partitioned (env (add_order 2%nat MoreExamples.w_book).2).
Proof.
  assert (H : sides_partitioned (env MoreExamples.w_book)).
  { split; intros x Hx; vm_compute in Hx.
    - apply elem_of_cons in Hx as [->|Hx]; [reflexivity |].
      apply list_elem_of_singleton in Hx as ->. reflexivity.
    - by apply elem_of_nil in Hx. }
  split; [exact H |].
  exact (proj1 (add_and_delete_keep_sides MoreExamples.w_book 2%nat H)).
Defined.

(** ** The matchers, by order type *)

Lemma match_order_dispatch {X} (trig fillm filll : @Callback X) r initial
    (w : @World X) o :
  heap (env w) !! r = Some o ->
  let w0 := {| env := env w; trace := trace w ++ [EvMatch r initial] |} in
  match_order trig fillm filll r initial w =
  match order_type o with
  | LIMIT | MARKET_TO_LIMIT => match_limit_order filll r w0
  | STOP_LIMIT | TRAILING_STOP_LIMIT =>
      match_stop_limit_order trig filll r initial w0
  | STOP_MARKET | TRAILING_STOP_MARKET => match_stop_market_order fillm r w0
  | LIMIT_IF_TOUCHED => match_limit_if_touched_order trig filll r initial w0
  | MARKET_IF_TOUCHED => match_market_if_touched_order fillm r w0
  | MARKET => (Raise TypeError, w0)
  end.
Proof.
  intros Hr w0. unfold match_order, emit, mbind at 1, M_bind at 1.
  erewrite bind_ok by (apply read_some; exact Hr).
  by destruct (order_type o).
Qed.

(** X10: [match_order] rejects a MARKET order with [TypeError] before
    anything is changed or any callback invoked; an open MARKET order on a
    side list therefore makes [iterate] raise [TypeError] when its turn
    comes, and the orders after it are not visited. *)
Theorem market_order_is_rejected {X} (trig fillm filll : @Callback X)
    r initial (w : @World X) o :
  heap (env w) !! r = Some o ->
  order_type o = MARKET ->
  match_order trig fillm filll r initial w
    = (Raise TypeError,
       {| env := env w; trace := trace w ++ [EvMatch r initial] |}) /\
  (forall ts pre post w0 w1,
     get_orders (core (env w0)) = pre ++ r :: post ->
     iterate_loop trig fillm filll pre w0 = (Ok tt, w1) ->
     heap (env w1) !! r = Some o ->
     is_closed o = false ->
     iterate trig fillm filll ts w0
       = (Raise TypeError,
          {| env := env w1; trace := trace w1 ++ [EvMatch r false] |})).
Proof.
  intros Hr Hty. split.
  - rewrite (match_order_dispatch _ _ _ _ _ _ o Hr). by rewrite Hty.
  - intros ts pre post w0 w1 Hsnap Hpre Hr1 Hopen.
    unfold iterate, get_core, mbind, M_bind. cbn.
    unfold get_orders in Hsnap. rewrite Hsnap.
    rewrite iterate_loop_app, Hpre, iterate_loop_cons, Hr1, Hopen.
    rewrite (match_order_dispatch _ _ _ _ _ _ o Hr1). by rewrite Hty.
Qed.

Lemma market_order_is_rejected_witness :
  heap (env MoreExamples.w_market) !! 1%nat = Some MoreExamples.market_buy /\
  match_order Examples.cb_trigger Examples.cb_fill Examples.cb_fill
    1%nat true MoreExamples.w_market
  = (Raise TypeError,
     {| env := env MoreExamples.w_market;
        trace := trace MoreExamples.w_market ++ [EvMatch 1%nat true] |}).
Proof.
  split; [reflexivity |].
  exact (proj1 (market_order_is_rejected
                  Examples.cb_trigger Examples.cb_fill Examples.cb_fill
                  1%nat true MoreExamples.w_market MoreExamples.market_buy
                  eq_refl eq_refl)).
Defined.

(** X11: for a LIMIT or MARKET_TO_LIMIT order [match_order] does nothing
    unless [is_limit_matched] holds for the order's side and price; if it
    holds, the liquidity side becomes MAKER and [fill_limit_order] is the one
    callback invoked.  [initial] plays no part. *)
Theorem limit_order_fills_as_maker {X} (trig fillm filll : @Callback X)
    r initial (w : @World X) o p :
  heap (env w) !! r = Some o ->
  order_type o = LIMIT \/ order_type o = MARKET_TO_LIMIT ->
  price o = Some p ->
  let enter := trace w ++ [EvMatch r initial] in
  match_order trig fillm filll r initial w =
  match is_limit_matched (core (env w)) (side o) p with
  | Ok true =>
      let out :=
        filll r {| core := core (env w);
                   heap := <[r := set_liquidity_side_attr MAKER o]>
                             (heap (env w));
                   ext := ext (env w) |} in
      (out.1, {| env := out.2; trace := enter ++ [EvFillLimit r] |})
  | Ok false => (Ok tt, {| env := env w; trace := enter |})
  | Raise e => (Raise e, {| env := env w; trace := enter |})
  end.
Proof.
  intros Hr Hty Hp enter.
  rewrite (match_order_dispatch _ _ _ _ _ _ o Hr). cbv zeta. subst enter.
  destruct Hty as [Hty|Hty]; rewrite Hty;
    unfold match_limit_order; run_m; rewrite Hr; cbn; rewrite Hp; cbn;
    (destruct (is_limit_matched _ _ _) as [[|]|]; [|done..]);
    rewrite (alter_present _ _ _ _ Hr); by destruct (filll r _).
Qed.

Lemma limit_order_fills_as_maker_witness :
  heap (env MoreExamples.w_limit) !! 1%nat = Some Examples.limit_buy /\
  (match_order Examples.cb_trigger Examples.cb_noop Examples.cb_fill
     1%nat true MoreExamples.w_limit).1 = Ok tt /\
  trace (match_order Examples.cb_trigger Examples.cb_noop Examples.cb_fill
           1%nat true MoreExamples.w_limit).2
  = [EvMatch 1%nat true; EvFillLimit 1%nat].
Proof.
  split; [reflexivity |].
  rewrite (limit_order_fills_as_maker
             Examples.cb_trigger Examples.cb_noop Examples.cb_fill
             1%nat true MoreExamples.w_limit Examples.limit_buy
             (Examples.px 10050) eq_refl (or_introl eq_refl) eq_refl).
  split; reflexivity.
Defined.

(** X12: for a STOP_MARKET or TRAILING_STOP_MARKET order [match_order] acts
    on [is_stop_triggered], for a MARKET_IF_TOUCHED order on
    [is_touch_triggered], of the order's side and trigger price.  If the
    condition holds the order's triggered price becomes its trigger price
    and [fill_market_order] is the one callback invoked; the liquidity side
    is not assigned.  Otherwise nothing happens. *)
Theorem market_style_orders_fill_on_trigger {X}
    (trig fillm filll : @Callback X) r initial (w : @World X) o t :
  heap (env w) !! r = Some o ->
  order_type o = STOP_MARKET \/ order_type o = TRAILING_STOP_MARKET \/
  order_type o = MARKET_IF_TOUCHED ->
  trigger_price o = Some t ->
  let enter := trace w ++ [EvMatch r initial] in
  let pred := if bool_decide (order_type o = MARKET_IF_TOUCHED)
              then is_touch_triggered else is_stop_triggered in
  match_order trig fillm filll r initial w =
  match pred (core (env w)) (side o) t with
  | Ok true =>
      let out :=
        fillm r {| core := core (env w);
                   heap := <[r := set_triggered_price_attr t o]>
                             (heap (env w));
                   ext := ext (env w) |} in
      (out.1, {| env := out.2; trace := enter ++ [EvFillMarket r] |})
  | Ok false => (Ok tt, {| env := env w; trace := enter |})
  | Raise e => (Raise e, {| env := env w; trace := enter |})
  end.
Proof.
  intros Hr Hty Ht enter pred.
  rewrite (match_order_dispatch _ _ _ _ _ _ o Hr). cbv zeta.
  assert (Hstop : match_stop_market_order fillm r
                    {| env := env w; trace := enter |} =
    match is_stop_triggered (core (env w)) (side o) t with
    | Ok true =>
        let out :=
          fillm r {| core := core (env w);
                     heap := <[r := set_triggered_price_attr t o]>
                               (heap (env w));
                     ext := ext (env w) |} in
        (out.1, {| env := out.2; trace := enter ++ [EvFillMarket r] |})
    | Ok false => (Ok tt, {| env := env w; trace := enter |})
    | Raise e => (Raise e, {| env := env w; trace := enter |})
    end).
  { unfold match_stop_market_order. run_m. rewrite Hr. cbn. rewrite Ht. cbn.
    destruct (is_stop_triggered _ _ _) as [[|]|]; [|done..].
    cbn. rewrite Hr. cbn. rewrite Ht. cbn.
    rewrite (alter_present _ _ _ _ Hr). by destruct (fillm r _). }
  assert (Htouch : match_market_if_touched_order fillm r
                     {| env := env w; trace := enter |} =
    match is_touch_triggered (core (env w)) (side o) t with
    | Ok true =>
        let out :=
          fillm r {| core := core (env w);
                     heap := <[r := set_triggered_price_attr t o]>
                               (heap (env w));
                     ext := ext (env w) |} in
        (out.1, {| env := out.2; trace := enter ++ [EvFillMarket r] |})
    | Ok false => (Ok tt, {| env := env w; trace := enter |})
    | Raise e => (Raise e, {| env := env w; trace := enter |})
    end).
  { unfold match_market_if_touched_order. run_m. rewrite Hr. cbn.
    rewrite Ht. cbn.
    destruct (is_touch_triggered _ _ _) as [[|]|]; [|done..].
    cbn. rewrite Hr. cbn. rewrite Ht. cbn.
    rewrite (alter_present _ _ _ _ Hr). by destruct (fillm r _). }
  subst pred. destruct Hty as [Hty|[Hty|Hty]]; rewrite Hty.
  - by rewrite bool_decide_eq_false_2.
  - by rewrite bool_decide_eq_false_2.
  - by rewrite bool_decide_eq_true_2.
Qed.

Lemma market_style_orders_fill_on_trigger_witness :
  heap (env MoreExamples.w_stop_market) !! 1%nat
    = Some MoreExamples.stop_market_buy /\
  (match_order Examples.cb_trigger Examples.cb_fill Examples.cb_noop
     1%nat false MoreExamples.w_stop_market).1 = Ok tt /\
  trace (match_order Examples.cb_trigger Examples.cb_fill Examples.cb_noop
           1%nat false MoreExamples.w_stop_market).2
  = [EvMatch 1%nat false; EvFillMarket 1%nat].
Proof.
  split; [reflexivity |].
  rewrite (market_style_orders_fill_on_trigger
             Examples.cb_trigger Examples.cb_fill Examples.cb_noop
             1%nat false MoreExamples.w_stop_market
             MoreExamples.stop_market_buy (Examples.px 10000)
             eq_refl (or_introl eq_refl) eq_refl).
  split; reflexivity.
Defined.

(** X13: once [is_triggered] is set, a STOP_LIMIT, TRAILING_STOP_LIMIT or
    LIMIT_IF_TOUCHED order is matched exactly like a limit order: both
    conditional matchers coincide with [match_limit_order], whatever
    [initial] is, and the trigger callback is not involved. *)
Theorem triggered_order_matches_as_limit {X} (trig filll : @Callback X)
    r initial (w : @World X) o :
  heap (env w) !! r = Some o ->
  is_triggered o = true ->
  match_stop_limit_order trig filll r initial w = match_limit_order filll r w /\
  match_limit_if_touched_order trig filll r initial w
    = match_limit_order filll r w.
Proof.
  intros Hr Htr.
  unfold match_stop_limit_order, match_limit_if_touched_order.
  rewrite !(bind_ok _ _ _ _ _ (read_some _ _ _ Hr)), Htr.
  by split.
Qed.

Lemma triggered_order_matches_as_limit_witness :
  heap (env MoreExamples.w_triggered) !! 1%nat
    = Some (Examples.mark_triggered Examples.stop_limit_buy) /\
  match_stop_limit_order Examples.cb_trigger Examples.cb_fill 1%nat false
    MoreExamples.w_triggered
  = match_limit_order Examples.cb_fill 1%nat MoreExamples.w_triggered.
Proof.
  split; [reflexivity |].
  exact (proj1 (triggered_order_matches_as_limit
                  Examples.cb_trigger Examples.cb_fill 1%nat false
                  MoreExamples.w_triggered
                  (Examples.mark_triggered Examples.stop_limit_buy)
                  eq_refl eq_refl)).
Defined.


(** ** No market *)

Lemma no_market_predicates c s p :
  no_market c ->
  is_limit_matched c s p <> Ok true /\
  is_stop_triggered c s p <> Ok true /\
  is_touch_triggered c s p <> Ok true.
Proof.
  intros [Hb Ha].
  unfold is_limit_matched, is_stop_triggered, is_touch_triggered.
  rewrite Hb, Ha. by destruct s.
Qed.

Section NoMarket.
Context {X : Type}.
Variables trig fillm filll : @Callback X.
Implicit Types w : @World X.

Lemma check_no_market pred arg r w :
  (forall c s p, no_market c -> pred c s p <> Ok true) ->
  no_market (core (env w)) ->
  exists res, check pred arg r w = (res, w) /\ res <> Ok true.
Proof.
  intros Hpred Hno. unfold check. run_m.
  destruct (heap (env w) !! r) as [o|]; [|by eexists].
  cbn. destruct (arg o) as [p|]; cbn; [|by eexists].
  eexists. split; [done |]. by apply Hpred.
Qed.

Lemma guarded_stays (m : @M X bool) (k : @M X unit) w :
  (exists res, m w = (res, w) /\ res <> Ok true) ->
  stays (m ≫= fun b : bool => if b then k else mret tt) w.
Proof.
  intros (res & E & Hne). unfold stays, mbind, M_bind. rewrite E.
  destruct res as [[|]|e]; [done | by eexists | by eexists].
Qed.

Lemma match_order_no_market r initial w :
  no_market (core (env w)) ->
  exists res,
    match_order trig fillm filll r initial w
    = (res, {| env := env w; trace := trace w ++ [EvMatch r initial] |}).
Proof.
  intros Hno.
  set (w0 := {| env := env w; trace := trace w ++ [EvMatch r initial] |}).
  assert (Hno0 : no_market (core (env w0))) by done.
  assert (Hl := fun arg => check_no_market is_limit_matched arg r w0
            (fun c s p H => proj1 (no_market_predicates c s p H)) Hno0).
  assert (Hs := fun arg => check_no_market is_stop_triggered arg r w0
            (fun c s p H => proj1 (proj2 (no_market_predicates c s p H)))
            Hno0).
  assert (Ht := fun arg => check_no_market is_touch_triggered arg r w0
            (fun c s p H => proj2 (proj2 (no_market_predicates c s p H)))
            Hno0).
  destruct (heap (env w) !! r) as [o|] eqn:Hr.
  2:{ exists (Raise ReferenceError).
      unfold match_order, emit, mbind at 1, M_bind at 1.
      by erewrite bind_raise by (apply read_none; exact Hr). }
  assert (Hr0 : heap (env w0) !! r = Some o) by done.
  rewrite (match_order_dispatch _ _ _ _ _ _ o Hr). cbv zeta. fold w0.
  destruct (order_type o).
  - by eexists.
  - apply guarded_stays, Hl.
  - apply guarded_stays, Hs.
  - unfold match_stop_limit_order.
    rewrite (bind_ok _ _ _ _ _ (read_some _ _ _ Hr0)).
    destruct (is_triggered o); apply guarded_stays; [apply Hl | apply Hs].
  - apply guarded_stays, Hl.
  - apply guarded_stays, Ht.
  - unfold match_limit_if_touched_order.
    rewrite (bind_ok _ _ _ _ _ (read_some _ _ _ Hr0)).
    destruct (is_triggered o); apply guarded_stays; [apply Hl | apply Ht].
  - apply guarded_stays, Hs.
  - unfold match_stop_limit_order.
    rewrite (bind_ok _ _ _ _ _ (read_some _ _ _ Hr0)).
    destruct (is_triggered o); apply guarded_stays; [apply Hl | apply Hs].
Qed.

Lemma iterate_loop_no_market l w :
  no_market (core (env w)) ->
  exists res new,
    iterate_loop trig fillm filll l w
    = (res, {| env := env w; trace := trace w ++ new |}) /\
    Forall (fun ev => exists r, ev = EvMatch r false) new.
Proof.
  revert w. induction l as [|r rest IH]; intros w Hno.
  - exists (Ok tt), []. cbn. rewrite app_nil_r. by destruct w.
  - rewrite iterate_loop_cons.
    destruct (heap (env w) !! r) as [o|].
    2:{ exists (Raise ReferenceError), []. rewrite app_nil_r. by destruct w. }
    destruct (is_closed o); [by apply IH |].
    destruct (match_order_no_market r false w Hno) as (res & ->).
    destruct res as [[]|e].
    + destruct (IH {| env := env w;
                      trace := trace w ++ [EvMatch r false] |} Hno)
        as (res' & new & -> & Hall).
      exists res', (EvMatch r false :: new). cbn.
      split; [by rewrite <- app_assoc |]. constructor; [by eexists | done].
    + exists (Raise e), [EvMatch r false]. split; [done |].
      constructor; [by eexists | done].
Qed.

End NoMarket.

(** X14: while neither bid nor ask has been published, matching does
    nothing: [match_order] and [iterate] invoke no callback and leave the
    core, the orders and the caller's state as they are, whatever the
    orders; all they can do is raise for an order they cannot handle. *)
Theorem no_market_no_effect {X} (trig fillm filll : @Callback X)
    (w : @World X) r initial ts :
  no_market (core (env w)) ->
  (exists res,
     match_order trig fillm filll r initial w
     = (res, {| env := env w; trace := trace w ++ [EvMatch r initial] |})) /\
  (exists res new,
     iterate trig fillm filll ts w
     = (res, {| env := env w; trace := trace w ++ new |}) /\
     Forall (fun ev => exists r', ev = EvMatch r' false) new).
Proof.
  intros Hno. split; [by apply match_order_no_market |].
  unfold iterate, get_core, mbind, M_bind. cbn.
  by apply iterate_loop_no_market.
Qed.

Lemma no_market_no_effect_witness :
  no_market (core (env Examples.w_single)) /\
  exists res,
    match_order Examples.cb_trigger Examples.cb_fill Examples.cb_fill
      1%nat false Examples.w_single
    = (res, {| env := env Examples.w_single;
               trace := trace Examples.w_single ++ [EvMatch 1%nat false] |}).
Proof.
  assert (H : no_market (core (env Examples.w_single)))
    by (split; reflexivity).
  split; [exact H |].
  exact (proj1 (no_market_no_effect
                  Examples.cb_trigger Examples.cb_fill Examples.cb_fill
                  Examples.w_single 1%nat false 0%N H)).
Defined.

(** ** What matching leaves alone *)

Section Statics.
Context {X : Type}.
Variables trig fillm filll : @Callback X.
Hypothesis trig_keeps : callback_keeps_core_and_statics trig.
Hypothesis fillm_keeps : callback_keeps_core_and_statics fillm.
Hypothesis filll_keeps : callback_keeps_core_and_statics filll.
Implicit Types w : @World X.

Lemma kept_refl w : core_and_statics_kept w w.
Proof. by split. Qed.

Lemma kept_trans w1 w2 w3 :
  core_and_statics_kept w1 w2 -> core_and_statics_kept w2 w3 ->
  core_and_statics_kept w1 w3.
Proof.
  intros [C1 S1] [C2 S2]. split; [by rewrite C2 |].
  intros r. by rewrite S2.
Qed.

Lemma kept_write (f : Order -> Order) r w :
  (forall o, static_attrs (f o) = static_attrs o) ->
  core_and_statics_kept w (write r f w).2.
Proof.
  intros Hf. split; [done |]. intros r'. cbn.
  destruct (decide (r = r')) as [<-|Hne].
  - rewrite lookup_alter_eq. destruct (heap (env w) !! r); cbn; [|done].
    by rewrite Hf.
  - by rewrite lookup_alter_ne.
Qed.

Lemma kept_callback (cb : @Callback X) r w :
  callback_keeps_core_and_statics cb ->
  core_and_statics_kept w (run_callback cb r w).2.
Proof.
  intros Hcb. unfold run_callback. destruct (Hcb r (env w)) as [C S].
  by destruct (cb r (env w)).
Qed.

Lemma kept_match_order r initial w :
  core_and_statics_kept w (match_order trig fillm filll r initial w).2.
Proof.
  eapply kept_trans;
    [| refine (steps_match_order trig fillm filll core_and_statics_kept
                 kept_refl kept_trans _ _ _ _ _ _ r initial w)].
  - by split.
  - by intros ev w1 _.
  - intros rr l w1. by apply kept_write.
  - intros rr p w1. by apply kept_write.
  - intros rr w1. by apply kept_callback.
  - intros rr w1. by apply kept_callback.
  - intros rr w1. by apply kept_callback.
Qed.

Lemma kept_iterate_loop l w :
  core_and_statics_kept w (iterate_loop trig fillm filll l w).2.
Proof.
  revert w. induction l as [|r rest IH]; intros w; [apply kept_refl |].
  rewrite iterate_loop_cons.
  destruct (heap (env w) !! r) as [o|]; [|apply kept_refl].
  destruct (is_closed o); [apply IH |].
  pose proof (kept_match_order r false w) as Hm.
  destruct (match_order _ _ _ _ _ _) as [[[]|e] w']; [|done].
  eapply kept_trans; [exact Hm | apply IH].
Qed.

End Statics.

(** X15: matching itself never changes the core (prices, index, side lists)
    and never changes an order's identity, side, type, price, trigger price,
    [is_triggered] or [is_closed]: if the three callbacks leave these alone,
    so do [match_order] and [iterate].  All the core writes are
    [triggered_price] and [liquidity_side]. *)
Theorem matching_leaves_core_and_statics {X}
    (trig fillm filll : @Callback X) (w : @World X) r initial ts :
  callback_keeps_core_and_statics trig ->
  callback_keeps_core_and_statics fillm ->
  callback_keeps_core_and_statics filll ->
  core_and_statics_kept w (match_order trig fillm filll r initial w).2 /\
  core_and_statics_kept w (iterate trig fillm filll ts w).2.
Proof.
  intros Ht Hm Hl. split; [by apply kept_match_order |].
  unfold iterate, get_core, mbind, M_bind. cbn.
  by apply kept_iterate_loop.
Qed.

Lemma cb_count_keeps_core_and_statics :
  callback_keeps_core_and_statics MoreExamples.cb_count.
Proof. by intros r e. Qed.

(** A sweep over a book with one stop-limit order that triggers and fills:
    the core writes the triggered price and the liquidity side, both
    callbacks run, and the core and the order's other attributes are as
    before. *)
Lemma matching_leaves_core_and_statics_witness :
  let w := MoreExamples.w_counted in
  let run := iterate MoreExamples.cb_count MoreExamples.cb_count
               MoreExamples.cb_count 0%N w in
  get_orders (core (env w)) = [1%nat] /\
  run.1 = Ok tt /\
  trace run.2
    = [EvMatch 1%nat false; EvTriggerStop 1%nat; EvFillLimit 1%nat] /\
  ext (env run.2) = 2%nat /\
  heap (env run.2) !! 1%nat
    = Some (activated Examples.stop_limit_buy (Some (Examples.px 10050))
                      TAKER) /\
  core_and_statics_kept w
    (match_order MoreExamples.cb_count MoreExamples.cb_count
       MoreExamples.cb_count 1%nat false w).2 /\
  core_and_statics_kept w run.2.
Proof.
  cbv zeta.
  do 5 (split; [vm_compute; reflexivity |]).
  exact (matching_leaves_core_and_statics
           MoreExamples.cb_count MoreExamples.cb_count MoreExamples.cb_count
           MoreExamples.w_counted 1%nat false 0%N
           cb_count_keeps_core_and_statics
           cb_count_keeps_core_and_statics
           cb_count_keeps_core_and_statics).
Defined.


(** ** One add, one delete *)

Lemma py_remove_sublist h r (l : list ref) : py_remove h r l `sublist_of` l.
Proof.
  induction l as [|y t IH]; cbn; [done |].
  destruct (order_eq h y r); [by apply sublist_cons | by apply sublist_skip].
Qed.

(** X16: [delete_order] on a BUY or SELL order never raises.  If an item
    equal to the order is on its side list, exactly the first such item is
    dropped; otherwise the list is as before.  The remaining items keep
    their order, a sorted list stays sorted, and the other side list is
    untouched. *)
Theorem delete_order_drops_one_item {X} (w : @World X) r o :
  heap (env w) !! r = Some o ->
  side o = BUY \/ side o = SELL ->
  let h := heap (env w) in
  let l := side_list (core (env w)) (side o) in
  let c' := core (env (delete_order r w).2) in
  let l' := side_list c' (side o) in
  (delete_order r w).1 = Ok tt /\
  l' = (if py_in h r l then py_remove h r l else l) /\
  l' `sublist_of` l /\
  (length l = length l' + (if py_in h r l then 1 else 0))%nat /\
  (count_eq h r l = count_eq h r l' + (if py_in h r l then 1 else 0))%nat /\
  (forall rev, side_sorted rev h l = true -> side_sorted rev h l' = true) /\
  side_list c' (opposite (side o))
    = side_list (core (env w)) (opposite (side o)).
Proof.
  intros Hr Hs h l c' l'. subst h l c' l'.
  assert (Hgen : forall l0 : list ref,
    let l1 := if py_in (heap (env w)) r l0
              then py_remove (heap (env w)) r l0 else l0 in
    l1 `sublist_of` l0 /\
    (length l0 = length l1
                 + (if py_in (heap (env w)) r l0 then 1 else 0))%nat /\
    (count_eq (heap (env w)) r l0
     = count_eq (heap (env w)) r l1
       + (if py_in (heap (env w)) r l0 then 1 else 0))%nat /\
    (forall rev, side_sorted rev (heap (env w)) l0 = true ->
                 side_sorted rev (heap (env w)) l1 = true)).
  { intros l0 l1. subst l1. split; [|split; [|split]].
    - destruct (py_in _ _ _); [apply py_remove_sublist | done].
    - destruct (py_in _ _ _) eqn:E; [|lia].
      rewrite (py_remove_length _ _ _ E). lia.
    - destruct (py_in _ _ _) eqn:E; [|lia].
      rewrite (py_remove_count _ _ _ E). lia.
    - intros rev. apply py_remove_sorted. }
  destruct Hs as [Hs|Hs]; rewrite Hs; cbn [side_list opposite].
  - rewrite (delete_order_buy w r o Hr Hs).
    unfold with_orders_bid, with_orders. proj_simpl.
    destruct (Hgen (_orders_bid (core (env w)))) as (H1 & H2 & H3 & H4).
    by repeat split.
  - rewrite (delete_order_sell w r o Hr Hs).
    unfold with_orders_ask, with_orders. proj_simpl.
    destruct (Hgen (_orders_ask (core (env w)))) as (H1 & H2 & H3 & H4).
    by repeat split.
Qed.

Lemma delete_order_drops_one_item_witness :
  heap (env Examples.w_dup) !! 1%nat = Some Examples.limit_buy /\
  (delete_order 1%nat Examples.w_dup).1 = Ok tt /\
  side_list (core (env (delete_order 1%nat Examples.w_dup).2)) BUY
    = [1%nat].
Proof.
  split; [reflexivity |].
  destruct (delete_order_drops_one_item
              Examples.w_dup 1%nat Examples.limit_buy
              eq_refl (or_introl eq_refl)) as (H1 & H2 & _).
  split; [exact H1 |]. exact (eq_trans H2 eq_refl).
Defined.

(** X17: an [add_order] on a BUY or SELL order that returns normally leaves
    the order's whole side list sorted, whatever order it was in before,
    with the same orders as before plus the new one. *)
Theorem add_order_sorts_whole_list {X} (w : @World X) r o :
  heap (env w) !! r = Some o ->
  side o = BUY \/ side o = SELL ->
  (add_order r w).1 = Ok tt ->
  let c' := core (env (add_order r w).2) in
  side_sorted (bool_decide (side o = BUY)) (heap (env w))
              (side_list c' (side o)) = true /\
  side_list c' (side o) ≡ₚ side_list (core (env w)) (side o) ++ [r] /\
  side_list c' (opposite (side o))
    = side_list (core (env w)) (opposite (side o)).
Proof.
  intros Hr Hs Hok c'. subst c'.
  destruct Hs as [Hs|Hs]; rewrite Hs; cbn [side_list opposite].
  - rewrite bool_decide_eq_true_2 by done.
    destruct (add_order_buy w r o Hr Hs) as (res & l' & E & P & S).
    rewrite E in Hok |- *. cbn in Hok. proj_simpl. by split; [apply S |].
  - rewrite bool_decide_eq_false_2 by done.
    destruct (add_order_sell w r o Hr Hs) as (res & l' & E & P & S).
    rewrite E in Hok |- *. cbn in Hok. proj_simpl. by split; [apply S |].
Qed.

(** After the trigger has left the bid list out of order, the next
    [add_order] on that side puts it right. *)
Lemma add_order_sorts_whole_list_witness :
  let w := MoreExamples.w_out_of_order in
  side_sorted true (heap (env w)) (side_list (core (env w)) BUY) = false /\
  heap (env w) !! 3%nat = Some Examples.second_bid /\
  (add_order 3%nat w).1 = Ok tt /\
  side_sorted true (heap (env w))
              (side_list (core (env (add_order 3%nat w).2)) BUY) = true.
Proof.
  cbv zeta. split; [vm_compute; reflexivity |].
  split; [reflexivity |]. split; [vm_compute; reflexivity |].
  exact (proj1 (add_order_sorts_whole_list
                  MoreExamples.w_out_of_order 3%nat Examples.second_bid
                  eq_refl (or_introl eq_refl) eq_refl)).
Defined.


(** * Sortedness along a run, by the invocations the run makes *)

(** ** The logged run is the run *)

Section Logging.
Context {X : Type}.
Variables trig fillm filll : @Callback X.

Lemma sim_ret {A} (a : A) : @simulates X A (mret a) (mret a).
Proof. by intros w w' H. Qed.

Lemma sim_raise {A} e : @simulates X A (raise e) (raise e).
Proof. by intros w w' H. Qed.

Lemma sim_lift_res {A} (x : Res A) : @simulates X A (lift_res x) (lift_res x).
Proof. by intros w w' H. Qed.

Lemma sim_bind {A B} (m : @M X A) m' (f : A -> @M X B) f' :
  simulates m m' -> (forall a, simulates (f a) (f' a)) ->
  simulates (m ≫= f) (m' ≫= f').
Proof.
  intros Hm Hf w w' H. unfold mbind, M_bind.
  destruct (Hm w w' H) as [E S].
  destruct (m w) as [[a1|e1] w1], (m' w') as [[a2|e2] w2]; cbn in *;
    try discriminate.
  - injection E as ->. by apply Hf.
  - injection E as ->. by split.
Qed.

Lemma sim_get_core : @simulates X _ get_core get_core.
Proof. intros w w' [He Ht]. unfold get_core. cbn. by rewrite He. Qed.

Lemma sim_get_heap : @simulates X _ get_heap get_heap.
Proof. intros w w' [He Ht]. unfold get_heap. cbn. by rewrite He. Qed.

Lemma sim_modify_core f : @simulates X _ (modify_core f) (modify_core f).
Proof.
  intros w w' [He Ht]. unfold modify_core, logs_of, unlog. cbn.
  by rewrite He.
Qed.

Lemma sim_emit ev : @simulates X _ (emit ev) (emit ev).
Proof.
  intros w w' [He Ht]. unfold emit, logs_of. cbn. by rewrite He, Ht.
Qed.

Lemma sim_read r : @simulates X _ (read r) (read r).
Proof.
  intros w w' [He Ht]. unfold read. rewrite He. cbn.
  destruct (heap (env w') !! r); by repeat split.
Qed.

Lemma sim_write r f : @simulates X _ (write r f) (write r f).
Proof.
  intros w w' [He Ht]. unfold write, logs_of, unlog. cbn. by rewrite He.
Qed.

Lemma sim_run_callback (cb : @Callback X) r :
  simulates (run_callback cb r) (run_callback (recording cb) r).
Proof.
  intros w w' [He Ht]. unfold run_callback, recording, logs_of. cbn.
  rewrite He. destruct (cb r (unlog (env w'))) as [res e2]. cbn.
  split; [done |]. split; [by destruct e2 | done].
Qed.

Ltac sim_tac :=
  repeat first
    [ apply sim_ret
    | apply sim_raise
    | apply sim_read
    | apply sim_write
    | apply sim_lift_res
    | apply sim_get_core
    | apply sim_get_heap
    | apply sim_modify_core
    | apply sim_emit
    | apply sim_run_callback
    | (apply sim_bind; [|intros ?])
    | match goal with
      | |- simulates (if ?b then _ else _) _ => destruct b
      end ].

Lemma sim_match_order r initial :
  simulates (match_order trig fillm filll r initial)
            (match_order (recording trig) (recording fillm)
                         (recording filll) r initial).
Proof.
  unfold match_order.
  apply sim_bind; [apply sim_emit | intros _].
  apply sim_bind; [apply sim_read | intros o].
  destruct (order_type o);
    unfold match_limit_order, match_stop_limit_order,
      match_stop_market_order, match_limit_if_touched_order,
      match_market_if_touched_order, get_trigger_price, check,
      assign_order_liquidity, set_liquidity_side, set_triggered_price_c,
      invoke;
    sim_tac.
Qed.

Lemma sim_iterate_loop l :
  simulates (iterate_loop trig fillm filll l)
            (iterate_loop (recording trig) (recording fillm)
                          (recording filll) l).
Proof.
  induction l as [|r rest IH]; cbn [iterate_loop]; [apply sim_ret |].
  unfold is_closed_c.
  apply sim_bind; [sim_tac | intros closed].
  apply sim_bind; [| intros _; exact IH].
  destruct closed; [apply sim_ret | apply sim_match_order].
Qed.

Lemma sim_add_order r : @simulates X _ (add_order r) (add_order r).
Proof.
  unfold add_order, _add_order, _sort_bid_orders, _sort_ask_orders.
  apply sim_bind; [apply sim_read | intros o].
  apply sim_bind; [apply sim_modify_core | intros _].
  apply sim_bind; [apply sim_read | intros o'].
  destruct (side o'); sim_tac.
Qed.

Lemma sim_delete_order r : @simulates X _ (delete_order r) (delete_order r).
Proof.
  unfold delete_order.
  apply sim_bind; [apply sim_read | intros o].
  apply sim_bind; [apply sim_modify_core | intros _].
  apply sim_bind; [apply sim_read | intros o'].
  destruct (side o'); sim_tac.
Qed.

Lemma sim_exec cmd :
  simulates (exec trig fillm filll cmd)
            (exec (recording trig) (recording fillm) (recording filll) cmd).
Proof.
  destruct cmd; cbn [exec].
  - apply sim_modify_core.
  - apply sim_modify_core.
  - apply sim_modify_core.
  - apply sim_modify_core.
  - apply sim_add_order.
  - apply sim_delete_order.
  - unfold iterate. apply sim_bind; [apply sim_get_core | intros c].
    apply sim_iterate_loop.
  - apply sim_match_order.
Qed.

Lemma logs_of_with_log (w : @World X) : logs_of w (with_log w).
Proof. destruct w as [[c h x] t]. by split. Qed.

(** ** Sortedness in the logged run *)

Implicit Types w : @World (Logged X).

Lemma logged_step_refl w : logged_step w w.
Proof. exists []. by rewrite app_nil_r. Qed.

Lemma logged_step_trans w1 w2 w3 :
  logged_step w1 w2 -> logged_step w2 w3 -> logged_step w1 w3.
Proof.
  intros (n1 & E1 & S1) (n2 & E2 & S2). exists (n1 ++ n2).
  split; [by rewrite E2, E1, app_assoc |].
  intros [F1 F2]%Forall_app Hs. auto.
Qed.

(** A step that leaves the log alone and keeps sorted lists sorted. *)
Lemma logged_step_quiet w1 w2 :
  ext (env w2) = ext (env w1) ->
  keeps_sorted w1 w2 ->
  logged_step w1 w2.
Proof.
  intros Hx Hk. exists []. rewrite app_nil_r, Hx. split; [done |].
  intros _. exact Hk.
Qed.

Lemma logged_step_callback (cb : @Callback X) r w :
  logged_step w (run_callback (recording cb) r w).2.
Proof.
  unfold run_callback, recording. cbn.
  exists [(unlog (env w), (cb r (unlog (env w))).2)]. split; [done |].
  intros [Hk _]%Forall_cons Hs. exact (Hk Hs).
Qed.

Lemma logged_step_match_order r initial w :
  logged_step w (match_order (recording trig) (recording fillm)
                             (recording filll) r initial w).2.
Proof.
  eapply logged_step_trans;
    [| refine (steps_match_order _ _ _ logged_step
                 logged_step_refl logged_step_trans _ _ _
                 (logged_step_callback trig) (logged_step_callback fillm)
                 (logged_step_callback filll) r initial w)].
  - apply logged_step_quiet; [done | intros H; exact H].
  - intros ev w1 _. apply logged_step_quiet; [done | intros H; exact H].
  - intros rr l w1. apply logged_step_quiet; [done |].
    by apply keeps_sorted_write.
  - intros rr p w1. apply logged_step_quiet; [done |].
    by apply keeps_sorted_write.
Qed.

Lemma logged_step_iterate_loop l w :
  logged_step w (iterate_loop (recording trig) (recording fillm)
                              (recording filll) l w).2.
Proof.
  revert w. induction l as [|r rest IH]; intros w; [apply logged_step_refl |].
  rewrite iterate_loop_cons.
  destruct (heap (env w) !! r) as [o|]; [|apply logged_step_refl].
  destruct (is_closed o); [apply IH |].
  pose proof (logged_step_match_order r false w) as Hm.
  destruct (match_order _ _ _ _ _ _) as [[[]|e] w']; [|done].
  eapply logged_step_trans; [exact Hm | apply IH].
Qed.

Lemma delete_order_ext {Y} (w : @World Y) r :
  ext (env (delete_order r w).2) = ext (env w).
Proof.
  destruct (heap (env w) !! r) as [o|] eqn:Hr.
  2:{ by rewrite (delete_order_dangling w r Hr). }
  destruct (side o) eqn:Hs.
  - by rewrite (delete_order_buy w r o Hr Hs).
  - by rewrite (delete_order_sell w r o Hr Hs).
  - by rewrite (delete_order_invalid w r o Hr Hs).
Qed.

Lemma logged_step_exec cmd w :
  match cmd with
  | CAddOrder r => (add_order r w).1 = Ok tt
  | _ => True
  end ->
  logged_step w (exec (recording trig) (recording fillm) (recording filll)
                      cmd w).2.
Proof.
  intros Hadd. destruct cmd; cbn [exec].
  - apply logged_step_quiet; [done | by intros [Hb Ha]].
  - apply logged_step_quiet; [done | by intros [Hb Ha]].
  - apply logged_step_quiet; [done | by intros [Hb Ha]].
  - apply logged_step_quiet; [done | by intros _].
  - apply logged_step_quiet;
      [by destruct (add_order_frame w r) as (_ & -> & _)
      |by apply add_order_sorted].
  - apply logged_step_quiet;
      [apply delete_order_ext | apply keeps_sorted_delete_order].
  - unfold iterate, get_core, mbind, M_bind. cbn.
    apply logged_step_iterate_loop.
  - apply logged_step_match_order.
Qed.

(** The logged run and the run, side by side. *)
Lemma logged_run cmds (w0 : @World X) w :
  logs_of w0 w ->
  adds_return trig fillm filll cmds w0 ->
  logs_of (exec_all trig fillm filll cmds w0)
          (exec_all (recording trig) (recording fillm) (recording filll)
                    cmds w) /\
  logged_step w (exec_all (recording trig) (recording fillm)
                          (recording filll) cmds w).
Proof.
  revert w0 w. induction cmds as [|cmd rest IH]; intros w0 w Hl Hadds.
  - split; [done | apply logged_step_refl].
  - destruct Hadds as [Hadd Hrest]. cbn [exec_all].
    destruct (sim_exec cmd w0 w Hl) as [Eres Hl'].
    destruct (IH _ _ Hl' Hrest) as [Hl'' Hstep].
    split; [exact Hl'' |].
    eapply logged_step_trans; [|exact Hstep].
    apply logged_step_exec. destruct cmd; try done.
    destruct (sim_add_order r w0 w Hl) as [E _]. by rewrite <- E.
Qed.

End Logging.

(** C1, as the code has it: the side lists are sorted by [order_sort_key]
    (bids descending, asks ascending) after any run of public operations
    that starts with them sorted, as long as every [add_order] of the run
    returned normally and every callback invocation the run made left the
    lists sorted.  Nothing is asked of the callbacks beyond the invocations
    of the run. *)
Theorem lists_sorted_along_run {X} (trig fillm filll : @Callback X)
    (cmds : list Command) (w : @World X) :
  Forall kept_sorted_by (invocations trig fillm filll cmds w) ->
  lists_sorted (env w) ->
  adds_return trig fillm filll cmds w ->
  lists_sorted (env (exec_all trig fillm filll cmds w)).
Proof.
  intros Hinv Hs Hadds.
  destruct (logged_run trig fillm filll cmds w (with_log w)
              (logs_of_with_log w) Hadds) as [[He _] (new & Elog & Hstep)].
  unfold invocations in Hinv. rewrite Elog in Hinv. cbn in Hinv.
  rewrite He. apply (Hstep Hinv). exact Hs.
Qed.

(** A run with a trigger callback that sets [is_triggered] and a fill
    callback that closes the order: the stop-limit triggers and fills, and
    both invocations leave the bid list sorted. *)
Lemma lists_sorted_along_run_witness :
  let trig := Examples.cb_trigger in
  let fillm := Examples.cb_noop in
  let filll := Examples.cb_fill in
  let w := MoreExamples.w_run_fresh in
  let cmds := MoreExamples.run_cmds in
  length (invocations trig fillm filll cmds w) = 2%nat /\
  Forall kept_sorted_by (invocations trig fillm filll cmds w) /\
  lists_sorted (env w) /\
  adds_return trig fillm filll cmds w /\
  lists_sorted (env (exec_all trig fillm filll cmds w)).
Proof.
  cbv zeta.
  assert (Hinv : Forall kept_sorted_by
                   (invocations Examples.cb_trigger Examples.cb_noop
                      Examples.cb_fill MoreExamples.run_cmds
                      MoreExamples.w_run_fresh)).
  { set (l := invocations _ _ _ _ _). vm_compute in l. subst l.
    repeat (constructor; [intros _; split; vm_compute; reflexivity |]).
    constructor. }
  assert (Hs : lists_sorted (env MoreExamples.w_run_fresh))
    by (split; reflexivity).
  assert (Ha : adds_return Examples.cb_trigger Examples.cb_noop
                 Examples.cb_fill MoreExamples.run_cmds
                 MoreExamples.w_run_fresh)
    by (vm_compute; repeat split).
  split; [vm_compute; reflexivity |].
  split; [exact Hinv | split; [exact Hs | split; [exact Ha |]]].
  exact (lists_sorted_along_run
           Examples.cb_trigger Examples.cb_noop Examples.cb_fill _ _
           Hinv Hs Ha).
Defined.


(** * The sweep, turn by turn *)

Section Turns.
Context {X : Type}.
Variables trig fillm filll : @Callback X.
Implicit Types w : @World X.

Lemma matched_turns_sublist (turns : list Turn) :
  matched_turns turns `sublist_of` (turn_order <$> turns).
Proof.
  induction turns as [|[r|r] t IH]; cbn; [done | |].
  - by apply sublist_skip.
  - by apply sublist_cons.
Qed.

Lemma quiet_has_no_match (new : list Event) r i :
  matched new = [] -> EvMatch r i ∉ new.
Proof.
  intros M Hin. apply list_elem_of_split in Hin as (a & b & ->).
  rewrite matched_app in M. cbn in M. by destruct (matched a).
Qed.

(** The loop goes through its list turn by turn. *)
Lemma iterate_loop_sweeps l w :
  exists turns new,
    sweeps trig fillm filll l w turns (iterate_loop trig fillm filll l w) /\
    (turn_order <$> turns) `prefix_of` l /\
    ((iterate_loop trig fillm filll l w).1 = Ok tt ->
     turn_order <$> turns = l) /\
    trace (iterate_loop trig fillm filll l w).2 = trace w ++ new /\
    matched new = matched_turns turns /\
    (forall r i, EvMatch r i ∈ new -> i = false).
Proof.
  revert w. induction l as [|r rest IH]; intros w.
  - exists [], []. cbn. rewrite app_nil_r.
    split; [constructor |]. repeat split; try done.
    by intros ? ? ?%elem_of_nil.
  - rewrite iterate_loop_cons.
    destruct (heap (env w) !! r) as [o|] eqn:Hr.
    2:{ exists [], []. cbn. rewrite app_nil_r.
        split; [by constructor |]. split; [apply prefix_nil |].
        repeat split; try done. by intros ? ? ?%elem_of_nil. }
    destruct (is_closed o) eqn:Hc.
    { destruct (IH w) as (turns & new & S & P & F & E & M & I).
      exists (Skipped r :: turns), new.
      split; [by econstructor |]. split; [by apply prefix_cons |].
      split; [intros Hok; cbn; f_equal; by apply F |]. by repeat split. }
    destruct (match_order_trace trig fillm filll r false w)
      as (n1 & E1 & M1).
    destruct (match_order _ _ _ _ _ _) as [[[]|e] w'] eqn:Em; cbn in E1.
    + destruct (IH w') as (turns & n2 & S & P & F & E & M & I).
      exists (Matched r :: turns), (EvMatch r false :: n1 ++ n2).
      split; [by econstructor |]. split; [by apply prefix_cons |].
      split; [intros Hok; cbn; f_equal; by apply F |].
      split; [by rewrite E, E1, <- app_assoc |].
      split; [by rewrite matched_cons_match, matched_app, M1, M |].
      intros r' i [[= -> ->]|[Hin|Hin]%elem_of_app]%elem_of_cons;
        [done | | by eapply I].
      by destruct (quiet_has_no_match _ _ _ M1 Hin).
    + exists [Matched r], (EvMatch r false :: n1).
      split; [by econstructor |].
      split; [apply prefix_cons, prefix_nil |].
      split; [done |]. split; [done |].
      split; [by rewrite matched_cons_match, M1 |].
      intros r' i [[= -> ->]|Hin]%elem_of_cons; [done |].
      by destruct (quiet_has_no_match _ _ _ M1 Hin).
Qed.

End Turns.

(** C7, as the code has it: [iterate] goes turn by turn through the orders
    that are in the bid list followed by the ask list when it is entered, in
    the order the lists have then (by priority if the lists are sorted at
    that moment).  An order that is closed when its turn comes is skipped
    without a call of [match_order]; every other order is handed to
    [match_order] with [initial = false] in the state the earlier turns have
    left; the first exception ends the sweep, and without one every order of
    the snapshot has had its turn.  Whatever the callbacks do to the core
    meanwhile, the orders matched are picked in order from the snapshot, so
    an order that is not in it is not matched in this sweep. *)
Theorem iterate_sweeps_snapshot {X} (trig fillm filll : @Callback X)
    (timestamp_ns : N) (w : @World X) :
  let snapshot := get_orders (core (env w)) in
  let run := iterate trig fillm filll timestamp_ns w in
  snapshot = get_orders_bid (core (env w)) ++ get_orders_ask (core (env w)) /\
  (lists_sorted (env w) ->
   side_sorted true (heap (env w)) (get_orders_bid (core (env w))) = true /\
   side_sorted false (heap (env w)) (get_orders_ask (core (env w))) = true) /\
  run = iterate_loop trig fillm filll snapshot w /\
  (exists turns new,
     sweeps trig fillm filll snapshot w turns run /\
     (turn_order <$> turns) `prefix_of` snapshot /\
     (run.1 = Ok tt -> turn_order <$> turns = snapshot) /\
     trace run.2 = trace w ++ new /\
     matched new = matched_turns turns /\
     matched new `sublist_of` snapshot /\
     (forall r i, EvMatch r i ∈ new -> i = false) /\
     (forall r, r ∉ snapshot -> r ∉ matched new)) /\
  (forall pre r post w1,
     snapshot = pre ++ r :: post ->
     iterate_loop trig fillm filll pre w = (Ok tt, w1) ->
     forall o, heap (env w1) !! r = Some o ->
     (is_closed o = true ->
        run = iterate_loop trig fillm filll post w1) /\
     (is_closed o = false ->
        run = match match_order trig fillm filll r false w1 with
              | (Ok _, w2) => iterate_loop trig fillm filll post w2
              | (Raise e, w2) => (Raise e, w2)
              end)).
Proof.
  intros snapshot run.
  assert (Hrun : run = iterate_loop trig fillm filll snapshot w) by done.
  split; [done |]. split; [by intros [Hb Ha] |].
  split; [exact Hrun |]. split.
  - destruct (iterate_loop_sweeps trig fillm filll snapshot w)
      as (turns & new & S & P & F & E & M & I).
    assert (Hsub : matched new `sublist_of` snapshot).
    { rewrite M. etrans; [apply matched_turns_sublist |].
      destruct P as [k ->]. by apply sublist_inserts_r. }
    exists turns, new. rewrite Hrun.
    repeat split; try done.
    intros r Hnot Hin. apply Hnot. by eapply elem_of_sublist.
  - intros pre r post w1 Hsnap Hpre o Ho. rewrite Hrun, Hsnap.
    rewrite iterate_loop_app, Hpre, iterate_loop_cons, Ho.
    split; intros ->; done.
Qed.

(** C7 as claimed fails in its order of priority.  The state is reached
    from a fresh core by two [add_order] calls, a price update and a sweep
    in which the stop-limit was triggered; its key is now 90.00, below the
    95.00 of the limit behind it.  The next sweep takes the bids as they
    are listed: the worse one first. *)
Lemma sweep_not_in_priority_order :
  let w := MoreExamples.w_after_trigger in
  let run := iterate Examples.cb_trigger Examples.cb_noop Examples.cb_fill
               0%N w in
  get_orders (core (env w)) = [1%nat; 2%nat] /\
  get_orders_bid (core (env w)) = [1%nat; 2%nat] /\
  sort_key_of (heap (env w)) 1%nat = Ok 9000 /\
  sort_key_of (heap (env w)) 2%nat = Ok 9500 /\
  side_sorted true (heap (env w)) (get_orders_bid (core (env w))) = false /\
  run.1 = Ok tt /\
  trace run.2 = trace w ++ [EvMatch 1%nat false; EvMatch 2%nat false] /\
  sort_key_of (heap (env run.2)) 1%nat = Ok 9000 /\
  sort_key_of (heap (env run.2)) 2%nat = Ok 9500.
Proof. vm_compute. repeat split. Qed.
